(** * Subprocess transport of the Claude Code SDK: frame accumulation and lifecycle

    Shallow embedding of [SubprocessCLITransport]
    (src/claude_code_sdk/_internal/transport/subprocess_cli.py).

    - Python [str] values are lists of Unicode code points ([N]); [len] is the
      number of code points.
    - The local variables of [receive_messages] ([json_buffer], [brace_count],
      [bracket_count], [in_string], [escape_next]) form the state that is
      threaded through the [async for] loop; one iteration of the loop is the
      function [feed].
    - [json.loads] belongs to the Python standard library, not to the
      repository; it is modelled by a one-pass automaton over code points that
      accepts what the default (strict) decoder accepts.
    - The child process and its streams are external: what they deliver
      (lines, exit code, outcome of terminate / wait / kill) is an explicit
      argument of the operation that consumes it.
    - Whatever the message stream delivers in one item is a line, as in the
      code ([async for line in ...]); the consumer of the generator is taken to
      ask for every message. *)

From Stdlib Require Import String Ascii.
From Stdlib Require DecimalString.
From Stdlib Require Import List ZArith NArith Bool Lia.
Import ListNotations.

Local Open Scope Z_scope.

#[local] Set Warnings "-register-all".

(* ================================================================== *)
(** * Text *)

Definition char := N.
Definition str := list char.

Definition len (s : str) : Z := Z.of_nat (length s).

(** Reading of a literal: [lit] is verbatim, [jlit] writes the JSON double
    quote as an apostrophe. *)
Definition lit (s : string) : str := map N_of_ascii (list_ascii_of_string s).

Definition DQUOTE : char := 34%N.
Definition APOSTROPHE : char := 39%N.
Definition BACKSLASH : char := 92%N.
Definition LBRACE : char := 123%N.
Definition RBRACE : char := 125%N.
Definition LBRACKET : char := 91%N.
Definition RBRACKET : char := 93%N.
Definition NEWLINE : char := 10%N.
Definition COMMA : char := 44%N.
Definition COLON : char := 58%N.

Definition jlit (s : string) : str :=
  map (fun c => if (c =? APOSTROPHE)%N then DQUOTE else c) (lit s).

Definition str_eqb (a b : str) : bool :=
  if list_eq_dec N.eq_dec a b then true else false.

(** [str.isspace] on one code point (the Unicode white-space code points). *)
Definition isspace (c : char) : bool :=
  ((9 <=? c) && (c <=? 13) || (28 <=? c) && (c <=? 32)
   || (c =? 133) || (c =? 160) || (c =? 5760)
   || (8192 <=? c) && (c <=? 8202)
   || (c =? 8232) || (c =? 8233) || (c =? 8239) || (c =? 8287)
   || (c =? 12288))%N.

Fixpoint lstrip (s : str) : str :=
  match s with
  | c :: r => if isspace c then lstrip r else s
  | [] => []
  end.

Definition rstrip (s : str) : str := rev (lstrip (rev s)).

(** [str.strip()] *)
Definition strip (s : str) : str := rstrip (lstrip s).

(** ["\n".join(parts)] *)
Fixpoint join_lines (parts : list str) : str :=
  match parts with
  | [] => []
  | [p] => p
  | p :: rest => p ++ NEWLINE :: join_lines rest
  end.

(** [str.lower()]: the ASCII capitals are mapped to their small letters.
    Python also lowers letters outside ASCII; none of them lowers to text
    that contains [e], [r] or [o], the only letters looked for below. *)
Definition lower_char (c : char) : char :=
  if ((65 <=? c) && (c <=? 90))%N then (c + 32)%N else c.

Definition lower (s : str) : str := map lower_char s.

Fixpoint startswith (s prefix : str) : bool :=
  match prefix, s with
  | [], _ => true
  | p :: ps, c :: cs => (c =? p)%N && startswith cs ps
  | _ :: _, [] => false
  end.

(** [needle in hay] *)
Fixpoint contains (needle hay : str) : bool :=
  startswith hay needle
  || match hay with
     | [] => false
     | _ :: rest => contains needle rest
     end.

(* ================================================================== *)
(** * JSON values and [json.loads] *)

Inductive json : Type :=
| JNull
| JBool (b : bool)
| JInt (z : Z)
| JFloat (lexeme : str)      (* a float is kept as the text of its numeral *)
| JString (s : str)
| JArray (items : list json)
| JObject (members : list (str * json)).

Module Json.

(** [dict] assignment: a repeated key keeps its place and takes the new
    value. *)
Fixpoint dict_set (k : str) (v : json) (d : list (str * json))
  : list (str * json) :=
  match d with
  | [] => [(k, v)]
  | (k', v') :: r =>
      if str_eqb k k' then (k, v) :: r else (k', v') :: dict_set k v r
  end.

Definition is_ws (c : char) : bool :=
  ((c =? 32) || (c =? 9) || (c =? 10) || (c =? 13))%N.

Definition is_digit (c : char) : bool := ((48 <=? c) && (c <=? 57))%N.

Definition hex_value (c : char) : option N :=
  if is_digit c then Some (c - 48)%N
  else if ((97 <=? c) && (c <=? 102))%N then Some (c - 87)%N
  else if ((65 <=? c) && (c <=? 70))%N then Some (c - 55)%N
  else None.

Inductive literal := LNull | LTrue | LFalse | LNaN | LInfinity | LNegInfinity.

Definition literal_text (l : literal) : str :=
  match l with
  | LNull => lit "null"
  | LTrue => lit "true"
  | LFalse => lit "false"
  | LNaN => lit "NaN"
  | LInfinity => lit "Infinity"
  | LNegInfinity => lit "-Infinity"
  end.

Definition literal_value (l : literal) : json :=
  match l with
  | LNull => JNull
  | LTrue => JBool true
  | LFalse => JBool false
  | LNaN | LInfinity | LNegInfinity => JFloat (literal_text l)
  end.

(** Containers being read, innermost first.  Array items are kept in
    reverse; an object frame holds the key whose value is being read. *)
Inductive frame :=
| FArray (items : list json)
| FObject (members : list (str * json)) (key : option str).

Inductive str_mode :=
| SPlain
| SEscape                         (* just after a backslash *)
| SHex (remaining : nat) (acc : N). (* inside the digits of \uXXXX *)

(** Position inside a numeral: an optional minus sign, then a single zero
    or a non-zero digit followed by digits, then an optional fraction (a dot
    and at least one digit), then an optional exponent (e or E, an optional
    sign, at least one digit). *)
Inductive num_mode :=
| NMinus | NZero | NInt | NDot | NFrac | NExp | NExpSign | NExpDigits.

Inductive mode :=
| MValue                  (* a value has to start *)
| MArrayStart             (* after '[' : a value or ']' *)
| MObjectStart            (* after '{' : a key or '}' *)
| MKey                    (* after ',' in an object: a key *)
| MColon                  (* after a key: ':' *)
| MAfter                  (* after a value in a container: ',' or the closer *)
| MDone (v : json)        (* the document is complete: white space only *)
| MString (is_key : bool) (hi : option N) (chars : str) (sm : str_mode)
                          (* [chars] reversed, [hi] a pending high surrogate *)
| MNumber (nm : num_mode) (lexeme : str)      (* [lexeme] reversed *)
| MLiteral (l : literal) (matched : nat).

Record pstate := mk_pstate { stack : list frame; pmode : mode }.

Definition init : pstate := mk_pstate [] MValue.

(** Hand a finished value to the enclosing container. *)
Definition deliver (stk : list frame) (v : json) : option pstate :=
  match stk with
  | [] => Some (mk_pstate [] (MDone v))
  | FArray items :: r => Some (mk_pstate (FArray (v :: items) :: r) MAfter)
  | FObject members (Some k) :: r =>
      Some (mk_pstate (FObject (dict_set k v members) None :: r) MAfter)
  | FObject _ None :: _ => None
  end.

(** The first character of a value. *)
Definition start_value (stk : list frame) (c : char) : option pstate :=
  if (c =? DQUOTE)%N then Some (mk_pstate stk (MString false None [] SPlain))
  else if (c =? LBRACE)%N then Some (mk_pstate (FObject [] None :: stk) MObjectStart)
  else if (c =? LBRACKET)%N then Some (mk_pstate (FArray [] :: stk) MArrayStart)
  else if (c =? 45)%N then Some (mk_pstate stk (MNumber NMinus [c]))
  else if (c =? 48)%N then Some (mk_pstate stk (MNumber NZero [c]))
  else if is_digit c then Some (mk_pstate stk (MNumber NInt [c]))
  else if (c =? 110)%N then Some (mk_pstate stk (MLiteral LNull 1))
  else if (c =? 116)%N then Some (mk_pstate stk (MLiteral LTrue 1))
  else if (c =? 102)%N then Some (mk_pstate stk (MLiteral LFalse 1))
  else if (c =? 78)%N then Some (mk_pstate stk (MLiteral LNaN 1))
  else if (c =? 73)%N then Some (mk_pstate stk (MLiteral LInfinity 1))
  else None.

(** The first character of a member: the quote that opens its key. *)
Definition start_key (stk : list frame) (c : char) : option pstate :=
  if (c =? DQUOTE)%N then Some (mk_pstate stk (MString true None [] SPlain))
  else None.

(** After a value: separators and closers ([MAfter]), or nothing but white
    space ([MDone]). *)
Definition settled_step (ps : pstate) (c : char) : option pstate :=
  match pmode ps with
  | MDone _ => if is_ws c then Some ps else None
  | MAfter =>
      if is_ws c then Some ps
      else match stack ps with
           | FArray items :: r =>
               if (c =? COMMA)%N then Some (mk_pstate (stack ps) MValue)
               else if (c =? RBRACKET)%N then deliver r (JArray (rev items))
               else None
           | FObject members None :: r =>
               if (c =? COMMA)%N then Some (mk_pstate (stack ps) MKey)
               else if (c =? RBRACE)%N then deliver r (JObject members)
               else None
           | _ => None
           end
  | _ => None
  end.

(** A pending high surrogate that found no partner stands for itself. *)
Definition flush_hi (hi : option N) (chars : str) : str :=
  match hi with
  | Some h => h :: chars
  | None => chars
  end.

(** The character written by a one-letter escape. *)
Definition escape_char (c : char) : option char :=
  if (c =? DQUOTE)%N then Some DQUOTE
  else if (c =? BACKSLASH)%N then Some BACKSLASH
  else if (c =? 47)%N then Some 47%N
  else if (c =? 98)%N then Some 8%N
  else if (c =? 102)%N then Some 12%N
  else if (c =? 110)%N then Some 10%N
  else if (c =? 114)%N then Some 13%N
  else if (c =? 116)%N then Some 9%N
  else None.

Definition is_high_surrogate (u : N) : bool := ((55296 <=? u) && (u <=? 56319))%N.
Definition is_low_surrogate (u : N) : bool := ((56320 <=? u) && (u <=? 57343))%N.

(** The code point of a finished \uXXXX escape joins a pending high
    surrogate when it is a low surrogate. *)
Definition unicode_escape (hi : option N) (chars : str) (u : N)
  : option N * str :=
  match hi with
  | Some h =>
      if is_low_surrogate u
      then (None, (65536 + (h - 55296) * 1024 + (u - 56320))%N :: chars)
      else if is_high_surrogate u then (Some u, h :: chars)
      else (None, u :: h :: chars)
  | None =>
      if is_high_surrogate u then (Some u, chars) else (None, u :: chars)
  end.

(** One character inside a string.  Strict decoding refuses control
    characters (below 32) there. *)
Definition string_step (stk : list frame) (is_key : bool) (hi : option N)
    (chars : str) (sm : str_mode) (c : char) : option pstate :=
  match sm with
  | SPlain =>
      if (c =? DQUOTE)%N then
        let s := rev (flush_hi hi chars) in
        if is_key then
          match stk with
          | FObject members None :: r =>
              Some (mk_pstate (FObject members (Some s) :: r) MColon)
          | _ => None
          end
        else deliver stk (JString s)
      else if (c =? BACKSLASH)%N then
        Some (mk_pstate stk (MString is_key hi chars SEscape))
      else if (c <? 32)%N then None
      else Some (mk_pstate stk (MString is_key None (c :: flush_hi hi chars) SPlain))
  | SEscape =>
      if (c =? 117)%N then Some (mk_pstate stk (MString is_key hi chars (SHex 4 0)))
      else match escape_char c with
           | Some e =>
               Some (mk_pstate stk (MString is_key None (e :: flush_hi hi chars) SPlain))
           | None => None
           end
  | SHex remaining acc =>
      match hex_value c, remaining with
      | Some d, S O =>
          let (hi', chars') := unicode_escape hi chars (acc * 16 + d)%N in
          Some (mk_pstate stk (MString is_key hi' chars' SPlain))
      | Some d, S k =>
          Some (mk_pstate stk (MString is_key hi chars (SHex k (acc * 16 + d)%N)))
      | _, _ => None
      end
  end.

(** The next position when [c] continues the numeral. *)
Definition number_continue (nm : num_mode) (c : char) : option num_mode :=
  match nm with
  | NMinus => if (c =? 48)%N then Some NZero
              else if is_digit c then Some NInt else None
  | NZero => if (c =? 46)%N then Some NDot
             else if ((c =? 101) || (c =? 69))%N then Some NExp else None
  | NInt => if is_digit c then Some NInt
            else if (c =? 46)%N then Some NDot
            else if ((c =? 101) || (c =? 69))%N then Some NExp else None
  | NDot => if is_digit c then Some NFrac else None
  | NFrac => if is_digit c then Some NFrac
             else if ((c =? 101) || (c =? 69))%N then Some NExp else None
  | NExp => if is_digit c then Some NExpDigits
            else if ((c =? 43) || (c =? 45))%N then Some NExpSign else None
  | NExpSign => if is_digit c then Some NExpDigits else None
  | NExpDigits => if is_digit c then Some NExpDigits else None
  end.

(** [int(numeral)]: an optional minus sign, then decimal digits. *)
Definition digits_value (digits : str) : Z :=
  fold_left (fun acc c => 10 * acc + Z.of_N (c - 48)) digits 0.

Definition int_of (numeral : str) : Z :=
  match numeral with
  | c :: digits => if (c =? 45)%N then - digits_value digits
                   else digits_value numeral
  | [] => 0
  end.

(** The value of a numeral that may stop here. *)
Definition number_value (nm : num_mode) (lexeme : str) : option json :=
  match nm with
  | NZero | NInt => Some (JInt (int_of (rev lexeme)))
  | NFrac | NExpDigits => Some (JFloat (rev lexeme))
  | NMinus | NDot | NExp | NExpSign => None
  end.

(** One character of [null], [true], [false], [NaN], [Infinity] or
    [-Infinity]. *)
Definition literal_step (stk : list frame) (l : literal) (matched : nat)
    (c : char) : option pstate :=
  match nth_error (literal_text l) matched with
  | Some e =>
      if (c =? e)%N then
        if Nat.eqb (S matched) (length (literal_text l))
        then deliver stk (literal_value l)
        else Some (mk_pstate stk (MLiteral l (S matched)))
      else None
  | None => None
  end.

(** One character of the document; [None] when the decoder would raise.  A
    numeral ends at the first character that cannot continue it; that
    character is then read as what follows a value. *)
Definition step (ps : pstate) (c : char) : option pstate :=
  let stk := stack ps in
  match pmode ps with
  | MValue => if is_ws c then Some ps else start_value stk c
  | MArrayStart =>
      if is_ws c then Some ps
      else if (c =? RBRACKET)%N then
        match stk with
        | FArray _ :: r => deliver r (JArray [])
        | _ => None
        end
      else start_value stk c
  | MObjectStart =>
      if is_ws c then Some ps
      else if (c =? RBRACE)%N then
        match stk with
        | FObject _ None :: r => deliver r (JObject [])
        | _ => None
        end
      else start_key stk c
  | MKey => if is_ws c then Some ps else start_key stk c
  | MColon =>
      if is_ws c then Some ps
      else if (c =? COLON)%N then Some (mk_pstate stk MValue)
      else None
  | MAfter | MDone _ => settled_step ps c
  | MString is_key hi chars sm => string_step stk is_key hi chars sm c
  | MNumber nm lexeme =>
      match number_continue nm c with
      | Some nm' => Some (mk_pstate stk (MNumber nm' (c :: lexeme)))
      | None =>
          match nm with
          | NMinus =>
              if (c =? 73)%N then Some (mk_pstate stk (MLiteral LNegInfinity 2))
              else None
          | _ =>
              match number_value nm lexeme with
              | Some v =>
                  match deliver stk v with
                  | Some ps' => settled_step ps' c
                  | None => None
                  end
              | None => None
              end
          end
      end
  | MLiteral l matched => literal_step stk l matched c
  end.

(** The automaton over a text. *)
Fixpoint run (ps : pstate) (s : str) : option pstate :=
  match s with
  | [] => Some ps
  | c :: r =>
      match step ps c with
      | Some ps' => run ps' r
      | None => None
      end
  end.

(** End of input: the document is complete, or a top-level numeral stops. *)
Definition finish (ps : pstate) : option json :=
  match pmode ps, stack ps with
  | MDone v, [] => Some v
  | MNumber nm lexeme, [] => number_value nm lexeme
  | _, _ => None
  end.

(** The byte order mark, refused at the start of a document. *)
Definition BOM : char := 65279%N.

End Json.

(** [json.loads(s)] on a [str], with the default arguments: [Some] value, or
    [None] for [json.JSONDecodeError].  The limits of the interpreter (depth
    of recursion, length of an integer numeral) are not modelled. *)
Definition json_loads (s : str) : option json :=
  if startswith s [Json.BOM] then None
  else match Json.run Json.init s with
       | Some ps => Json.finish ps
       | None => None
       end.

(* ================================================================== *)
(** * The frame accumulator of [receive_messages] *)

(** [brace_count], [bracket_count], [in_string], [escape_next] *)
Record scan_state := mk_scan {
  brace_count : Z;
  bracket_count : Z;
  in_string : bool;
  escape_next : bool
}.

(** The local variables that survive from one line to the next. *)
Record acc_state := mk_acc {
  json_buffer : str;
  scan : scan_state
}.

Definition scan0 : scan_state := mk_scan 0 0 false false.

(** The values assigned before the loop, and again at every reset. *)
Definition acc0 : acc_state := mk_acc [] scan0.

Definition MAX_BUFFER_SIZE : Z := 50 * 1024 * 1024.

(** Body of [while i < len(line_str)]: the effect of one character. *)
Definition scan_char (s : scan_state) (c : char) : scan_state :=
  if in_string s then
    if escape_next s then
      mk_scan (brace_count s) (bracket_count s) (in_string s) false
    else if (c =? BACKSLASH)%N then
      mk_scan (brace_count s) (bracket_count s) (in_string s) true
    else if (c =? DQUOTE)%N then
      mk_scan (brace_count s) (bracket_count s) false (escape_next s)
    else s
  else
    if (c =? DQUOTE)%N then
      mk_scan (brace_count s) (bracket_count s) true (escape_next s)
    else if (c =? LBRACE)%N then
      mk_scan (brace_count s + 1) (bracket_count s) (in_string s) (escape_next s)
    else if (c =? RBRACE)%N then
      mk_scan (brace_count s - 1) (bracket_count s) (in_string s) (escape_next s)
    else if (c =? LBRACKET)%N then
      mk_scan (brace_count s) (bracket_count s + 1) (in_string s) (escape_next s)
    else if (c =? RBRACKET)%N then
      mk_scan (brace_count s) (bracket_count s - 1) (in_string s) (escape_next s)
    else s.

(** The whole [while] loop over the new line. *)
Definition scan_line (s : scan_state) (line_str : str) : scan_state :=
  fold_left scan_char line_str s.

(** [json_buffer += "\n" + line_str], or [json_buffer = line_str]. *)
Definition append_line (buffer line_str : str) : str :=
  match buffer with
  | [] => line_str
  | _ :: _ => buffer ++ NEWLINE :: line_str
  end.

(** [brace_count == 0 and bracket_count == 0 and not in_string] *)
Definition balanced (s : scan_state) : bool :=
  (brace_count s =? 0) && (bracket_count s =? 0) && negb (in_string s).

Definition nonempty (s : str) : bool :=
  match s with
  | [] => false
  | _ :: _ => true
  end.

(** [json_buffer.startswith("{") or json_buffer.startswith("[")] *)
Definition looks_like_json (buffer : str) : bool :=
  startswith buffer [LBRACE] || startswith buffer [LBRACKET].

Inductive sdk_error :=
| CLIConnectionError (message : str)
| CLIJSONDecodeError (line : str)
| ProcessError (message : str) (exit_code : Z) (stderr : str).

(** What one iteration of the [async for] loop does. *)
Inductive feed_result :=
| Continue (st : acc_state)              (* nothing yielded *)
| Yield (data : json) (st : acc_state)   (* [yield data] *)
| Raise (e : sdk_error).

Definition overflow_error : sdk_error :=
  CLIJSONDecodeError
    (lit "JSON buffer exceeded 52428800 bytes. Response too large.").

(** The check made once the new line has been scanned. *)
Definition complete_check (buffer : str) (s : scan_state) : feed_result :=
  if nonempty buffer && balanced s then
    match json_loads buffer with
    | Some data => Yield data acc0
    | None =>
        if looks_like_json buffer then
          if len buffer <? MAX_BUFFER_SIZE then Continue (mk_acc buffer s)
          else Raise (CLIJSONDecodeError (firstn 1000 buffer ++ lit "..."))
        else Continue acc0
    end
  else Continue (mk_acc buffer s).

(** One iteration: strip, skip blank lines, guard the size, append, scan,
    check for a complete value. *)
Definition feed (st : acc_state) (line : str) : feed_result :=
  let line_str := strip line in
  if nonempty line_str then
    if len (json_buffer st) + len line_str >? MAX_BUFFER_SIZE
    then Raise overflow_error
    else complete_check (append_line (json_buffer st) line_str)
                        (scan_line (scan st) line_str)
  else Continue st.

(** How the loop over the message stream ends. *)
Inductive loop_end :=
| Exhausted (st : acc_state)                (* end of stream *)
| Raised (e : sdk_error) (unread : list str).

(** The [async for] loop: the values yielded, in order, and how it ended. *)
Fixpoint feed_all (st : acc_state) (lines : list str) : list json * loop_end :=
  match lines with
  | [] => ([], Exhausted st)
  | line :: rest =>
      match feed st line with
      | Continue st' => feed_all st' rest
      | Yield data st' =>
          let (out, e) := feed_all st' rest in (data :: out, e)
      | Raise e => ([], Raised e rest)
      end
  end.

(* ================================================================== *)
(** * The transport *)

(** A stream handle stands for the chunks the child will still write;
    reaching the end of the stream and [anyio.ClosedResourceError] both end
    the reading loop. *)
Inductive stream_end := EndOfStream | ClosedResource.

Record text_stream := mk_stream {
  chunks : list str;
  ending : stream_end
}.

Record process := mk_process {
  returncode : option Z
}.

(** [_process], [_stdout_stream], [_stderr_stream] *)
Record transport := mk_transport {
  _process : option process;
  _stdout_stream : option text_stream;
  _stderr_stream : option text_stream
}.

(** State left by [__init__]. *)
Definition new_transport : transport := mk_transport None None None.

(** Outcome of [anyio.open_process]. *)
Inductive spawn_result :=
| Spawned (p : process) (stdout stderr : option text_stream)
| SpawnFileNotFound
| SpawnFailed (message : str).

Inductive connect_error :=
| CLINotFoundError
| ConnectFailed (message : str).

Definition connect (t : transport) (spawn : spawn_result)
  : transport * option connect_error :=
  match _process t with
  | Some _ => (t, None)
  | None =>
      match spawn with
      | Spawned p out err =>
          (mk_transport (Some p)
             (match out with Some _ => out | None => _stdout_stream t end)
             (match err with Some _ => err | None => _stderr_stream t end),
           None)
      | SpawnFileNotFound => (t, Some CLINotFoundError)
      | SpawnFailed m => (t, Some (ConnectFailed m))
      end
  end.

(** What the child does when asked to stop.  [kill()] and the [wait()] that
    follows it are taken to return. *)
Inductive terminate_outcome :=
| TerminateSent
| TerminateLookupError.       (* [ProcessLookupError] *)

Record child_behaviour := mk_child {
  on_terminate : terminate_outcome;
  exits_in_time : bool    (* the timed wait returns; otherwise [TimeoutError] *)
}.

(** Calls made on the process handle. *)
Inductive action :=
| Terminate
| WaitTimed            (* [wait()] under [anyio.fail_after(5.0)] *)
| Kill
| Wait.

Definition disconnect (t : transport) (child : child_behaviour)
  : transport * list action :=
  match _process t with
  | None => (t, [])
  | Some p =>
      let actions :=
        match returncode p with
        | None =>
            match on_terminate child with
            | TerminateLookupError => [Terminate]
            | TerminateSent =>
                if exits_in_time child
                then [Terminate; WaitTimed]
                else [Terminate; WaitTimed; Kill; Wait]
            end
        | Some _ => []
        end in
      (mk_transport None None None, actions)
  end.

(** [send_request] has an empty body. *)
Definition send_request (t : transport) (messages : list json)
    (options : list (str * json)) : transport * option sdk_error :=
  (t, None).

(** [is_connected] *)
Definition is_connected (t : transport) : bool :=
  match _process t with
  | Some p => match returncode p with None => true | Some _ => false end
  | None => false
  end.

(** [read_stderr]: every chunk stripped, in order. *)
Definition read_stderr (t : transport) : list str :=
  match _stderr_stream t with
  | Some s => map strip (chunks s)
  | None => []
  end.

(** [await self._process.wait()]: the exit code becomes known. *)
Definition wait (p : process) (exit_code : Z) : process :=
  match returncode p with
  | Some _ => p
  | None => mk_process (Some exit_code)
  end.

(** The part of [receive_messages] after the task group. *)
Definition reconcile (p : process) (stderr_lines : list str) : option sdk_error :=
  match returncode p with
  | Some code =>
      if negb (code =? 0) then
        let stderr_output := join_lines stderr_lines in
        if nonempty stderr_output && contains (lit "error") (lower stderr_output)
        then Some (ProcessError (lit "CLI process failed") code stderr_output)
        else None
      else None
  | None => None
  end.

(** A stream that has been read to its end. *)
Definition drained (s : text_stream) : text_stream :=
  mk_stream [] (ending s).

Record received := mk_received {
  after : transport;            (* the transport once the generator has ended *)
  yielded : list json;          (* the messages, in order *)
  raised : option sdk_error     (* the exception that ends the generator *)
}.

(** [receive_messages]; [exit_code] is what the child exits with.  When the
    loop raises, the task group cancels the reader of the diagnostic stream;
    how far it got is left out of the model. *)
Definition receive_messages (t : transport) (exit_code : Z) : received :=
  match _process t, _stdout_stream t with
  | Some p, Some out =>
      let stderr_lines := read_stderr t in
      match feed_all acc0 (chunks out) with
      | (msgs, Raised e unread) =>
          mk_received
            (mk_transport (Some p) (Some (mk_stream unread (ending out)))
                          (_stderr_stream t))
            msgs (Some e)
      | (msgs, Exhausted _) =>
          let p' := wait p exit_code in
          mk_received
            (mk_transport (Some p') (Some (drained out))
                          (option_map drained (_stderr_stream t)))
            msgs (reconcile p' stderr_lines)
      end
  | _, _ =>
      mk_received t [] (Some (CLIConnectionError (lit "Not connected")))
  end.

(* ================================================================== *)
(** * Construction of the transport: [__init__], [_find_cli],
      [_build_command] and the launch made by [connect] *)

(** [sep.join(parts)] *)
Fixpoint join_with (sep : str) (parts : list str) : str :=
  match parts with
  | [] => []
  | [p] => p
  | p :: rest => p ++ sep ++ join_with sep rest
  end.

(** [str(n)] for an [int]: the decimal numeral, with a minus sign when
    negative. *)
Definition str_of_int (n : Z) : str :=
  lit (DecimalString.NilZero.string_of_int (Z.to_int n)).

(** An argument of type [str | Path | None].  A [Path] object is always
    true; a [str] is true when it is not empty. *)
Inductive path_arg :=
| NoPath
| StrPath (s : str)
| PathObj (text : str).       (* [text] is [str(path)] *)

(** [str(a) if a else None] *)
Definition path_text (a : path_arg) : option str :=
  match a with
  | NoPath => None
  | StrPath s => if nonempty s then Some s else None
  | PathObj text => Some text
  end.

(** The fields of [ClaudeCodeOptions] that this file reads, with the types
    that the tests and calls made on them require (the class itself is
    declared in another module). *)
Record ClaudeCodeOptions := mk_options {
  system_prompt : option str;
  append_system_prompt : option str;
  allowed_tools : list str;
  max_turns : option Z;
  disallowed_tools : list str;
  model : option str;
  permission_prompt_tool_name : option str;
  permission_mode : option str;
  continue_conversation : bool;
  resume : option str;
  mcp_servers : list (str * json);      (* a [dict] *)
  cwd : path_arg
}.

(** Truth value of an optional string and of an optional integer. *)
Definition given (o : option str) : option str :=
  match o with
  | Some s => if nonempty s then Some s else None
  | None => None
  end.

Definition given_int (o : option Z) : option Z :=
  match o with
  | Some n => if n =? 0 then None else Some n
  | None => None
  end.

(** What the host answers to [shutil.which], [Path.home()], [Path.exists()]
    and [Path.is_file()].  [home] is the text of the home directory on a
    POSIX host: an absolute path, which [pathlib] keeps without a final slash
    unless it is the root. *)
Record host := mk_host {
  which : str -> option str;
  home : str;
  path_exists : str -> bool;
  path_is_file : str -> bool
}.

(** [str(Path.home() / rel)] *)
Definition home_path (h : host) (rel : str) : str :=
  if str_eqb (home h) (lit "/") then lit "/" ++ rel
  else home h ++ lit "/" ++ rel.

(** The list [locations] of [_find_cli]. *)
Definition locations (h : host) : list str :=
  [ home_path h (lit ".npm-global/bin/claude");
    lit "/usr/local/bin/claude";
    home_path h (lit ".local/bin/claude");
    home_path h (lit "node_modules/.bin/claude");
    home_path h (lit ".yarn/bin/claude") ].

(** The [for path in locations] loop. *)
Fixpoint first_file (h : host) (paths : list str) : option str :=
  match paths with
  | [] => None
  | path :: rest =>
      if path_exists h path && path_is_file h path then Some path
      else first_file h rest
  end.

Definition node_missing_message : str :=
  lit "Claude Code requires Node.js, which is not installed."
  ++ [NEWLINE; NEWLINE]
  ++ lit "Install Node.js from: https://nodejs.org/" ++ [NEWLINE]
  ++ [NEWLINE] ++ lit "After installing Node.js, install Claude Code:"
  ++ [NEWLINE]
  ++ lit "  npm install -g @anthropic-ai/claude-code".

Definition not_found_message : str :=
  lit "Claude Code not found. Install with:" ++ [NEWLINE]
  ++ lit "  npm install -g @anthropic-ai/claude-code" ++ [NEWLINE]
  ++ [NEWLINE] ++ lit "If already installed locally, try:" ++ [NEWLINE]
  ++ lit "  export PATH=" ++ [DQUOTE] ++ lit "$HOME/node_modules/.bin:$PATH"
  ++ [DQUOTE; NEWLINE]
  ++ [NEWLINE] ++ lit "Or specify the path when creating transport:"
  ++ [NEWLINE]
  ++ lit "  SubprocessCLITransport(..., cli_path='/path/to/claude')".

(** [CLINotFoundError(message)] raised while locating the binary. *)
Inductive find_error := NotFound (message : str).

(** [_find_cli]: the binary on the search path, else the first of the five
    usual places that is a file, else an error whose text depends on whether
    [node] is on the search path. *)
Definition _find_cli (h : host) : str + find_error :=
  match given (which h (lit "claude")) with
  | Some cli => inl cli
  | None =>
      match first_file h (locations h) with
      | Some path => inl path
      | None =>
          match which h (lit "node") with
          | None => inr (NotFound node_missing_message)
          | Some _ => inr (NotFound not_found_message)
          end
      end
  end.

(** The attributes set by [__init__] besides the process and its streams. *)
Record settings := mk_settings {
  _prompt : str;
  _options : ClaudeCodeOptions;
  _cli_path : str;
  _cwd : option str
}.

(** [__init__]: the settings and the transport without process, or the error
    of [_find_cli]. *)
Definition init (h : host) (prompt : str) (options : ClaudeCodeOptions)
    (cli_path : path_arg) : (settings * transport) + find_error :=
  match path_text cli_path with
  | Some text =>
      inl (mk_settings prompt options text (path_text (cwd options)),
           new_transport)
  | None =>
      match _find_cli h with
      | inl found =>
          inl (mk_settings prompt options found (path_text (cwd options)),
               new_transport)
      | inr e => inr e
      end
  end.

(** [cmd.extend([flag, value])] when the option is given. *)
Definition flag_value (flag : string) (value : option str) : list str :=
  match value with
  | Some v => [lit flag; v]
  | None => []
  end.

(** The same for a list of names, joined by commas. *)
Definition flag_names (flag : string) (names : list str) : list str :=
  match names with
  | [] => []
  | _ :: _ => [lit flag; join_with (lit ",") names]
  end.

Section Command.

(** [json.dumps] is taken as given. *)
Variable json_dumps : json -> str.

(** [_build_command] *)
Definition _build_command (s : settings) : list str :=
  let o := _options s in
  [_cli_path s; lit "--output-format"; lit "stream-json"; lit "--verbose"]
  ++ flag_value "--system-prompt" (given (system_prompt o))
  ++ flag_value "--append-system-prompt" (given (append_system_prompt o))
  ++ flag_names "--allowedTools" (allowed_tools o)
  ++ flag_value "--max-turns" (option_map str_of_int (given_int (max_turns o)))
  ++ flag_names "--disallowedTools" (disallowed_tools o)
  ++ flag_value "--model" (given (model o))
  ++ flag_value "--permission-prompt-tool"
       (given (permission_prompt_tool_name o))
  ++ flag_value "--permission-mode" (given (permission_mode o))
  ++ (if continue_conversation o then [lit "--continue"] else [])
  ++ flag_value "--resume" (given (resume o))
  ++ match mcp_servers o with
     | [] => []
     | _ :: _ =>
         [lit "--mcp-config";
          json_dumps (JObject [(lit "mcpServers", JObject (mcp_servers o))])]
     end
  ++ [lit "--print"; _prompt s].

(** A mapping of environment variables, as a [dict]. *)
Definition environ := list (str * str).

(** [d[key] = value] *)
Fixpoint env_set (key value : str) (d : environ) : environ :=
  match d with
  | [] => [(key, value)]
  | (k, v) :: r =>
      if str_eqb key k then (key, value) :: r else (k, v) :: env_set key value r
  end.

(** [d.get(key)] *)
Fixpoint env_get (key : str) (d : environ) : option str :=
  match d with
  | [] => None
  | (k, v) :: r => if str_eqb key k then Some v else env_get key r
  end.

(** The arguments of [anyio.open_process] ([stdin] is [None], the two output
    streams are pipes). *)
Record launch := mk_launch {
  command : list str;
  launch_cwd : option str;
  launch_env : environ
}.

Definition ENTRYPOINT : str := lit "CLAUDE_CODE_ENTRYPOINT".

(** What [connect] hands to [anyio.open_process]. *)
Definition launch_of (s : settings) (os_environ : environ) : launch :=
  mk_launch (_build_command s) (_cwd s)
            (env_set ENTRYPOINT (lit "sdk-py") os_environ).

(** [connect] with the process launcher as an argument: nothing is launched
    when a process is already held. *)
Definition connect_with (open_process : launch -> spawn_result)
    (s : settings) (os_environ : environ) (t : transport)
  : transport * option connect_error :=
  match _process t with
  | Some _ => (t, None)
  | None => connect t (open_process (launch_of s os_environ))
  end.

End Command.

(* ================================================================== *)
(** * Notions used in the statements *)

(** ** The scanner seen from the JSON automaton

    The scanner's counters and flags can be read off a state of the automaton
    of [json_loads]: open objects, open arrays, inside a string, just after a
    backslash. *)
Fixpoint open_objects (stk : list Json.frame) : Z :=
  match stk with
  | [] => 0
  | Json.FObject _ _ :: r => open_objects r + 1
  | Json.FArray _ :: r => open_objects r
  end.

Fixpoint open_arrays (stk : list Json.frame) : Z :=
  match stk with
  | [] => 0
  | Json.FArray _ :: r => open_arrays r + 1
  | Json.FObject _ _ :: r => open_arrays r
  end.

Definition shadow (ps : Json.pstate) : scan_state :=
  mk_scan (open_objects (Json.stack ps)) (open_arrays (Json.stack ps))
    match Json.pmode ps with
    | Json.MString _ _ _ _ => true
    | _ => false
    end
    match Json.pmode ps with
    | Json.MString _ _ _ Json.SEscape => true
    | _ => false
    end.

(** A top-level scalar is being read, or the document is complete. *)
Definition scalar_top (ps : Json.pstate) : Prop :=
  Json.stack ps = [] /\
  match Json.pmode ps with
  | Json.MDone _ | Json.MString false _ _ _ | Json.MNumber _ _
  | Json.MLiteral _ _ => True
  | _ => False
  end.

(** The document is complete. *)
Definition is_done (ps : Json.pstate) : Prop :=
  match Json.pmode ps with
  | Json.MDone _ => True
  | _ => False
  end.

(** ** Buffers built from lines *)

(** The text that the lines after the first add to the buffer. *)
Definition continuation (rest : list str) : str :=
  concat (map (fun l => NEWLINE :: strip l) rest).

(** The buffer built from [buffer] by the non-blank lines of [lines]. *)
Definition pending (buffer : str) (lines : list str) : str :=
  fold_left
    (fun b l => if nonempty (strip l) then append_line b (strip l) else b)
    lines buffer.

(** The top level of a value is an object or an array. *)
Definition is_container (v : json) : bool :=
  match v with
  | JArray _ | JObject _ => true
  | _ => false
  end.

(** ** The diagnostic text

    In the words of the specification: the text contains the substring
    [error] case-insensitively, that is, some stretch of it spells [error]
    when the case of the ASCII letters is ignored. *)
Definition same_letter (a b : char) : Prop :=
  a = b \/
  ((65 <= a <= 90)%N /\ b = (a + 32)%N) \/
  ((65 <= b <= 90)%N /\ a = (b + 32)%N).

Definition mentions_error (text : str) : Prop :=
  exists pre mid post,
    text = pre ++ mid ++ post /\ Forall2 same_letter mid (lit "error").

(** ** Transports *)

(** A transport with a live child that writes [lines] on its message stream
    and nothing on its diagnostic stream. *)
Definition connected (lines : list str) : transport :=
  mk_transport (Some (mk_process None))
               (Some (mk_stream lines EndOfStream))
               (Some (mk_stream [] EndOfStream)).

(** The transports that the operations of the class can produce. *)
Inductive reachable : transport -> Prop :=
| reach_new : reachable new_transport
| reach_connect t spawn :
    reachable t -> reachable (fst (connect t spawn))
| reach_disconnect t child :
    reachable t -> reachable (fst (disconnect t child))
| reach_send t messages options :
    reachable t -> reachable (fst (send_request t messages options))
| reach_receive t exit_code :
    reachable t -> reachable (after (receive_messages t exit_code)).

(** What [disconnect] asks of a child that has not exited yet. *)
Definition stop_actions (child : child_behaviour) : list action :=
  match on_terminate child, exits_in_time child with
  | TerminateLookupError, _ => [Terminate]
  | TerminateSent, true => [Terminate; WaitTimed]
  | TerminateSent, false => [Terminate; WaitTimed; Kill; Wait]
  end.

(** The exception of a [receive_messages] without connection. *)
Definition not_connected : sdk_error := CLIConnectionError (lit "Not connected").

(** ** Further notions on the accumulator *)

(** The scanner state [s] with its two counters moved by [a] and [b]. *)
Definition shift (a b : Z) (s : scan_state) : scan_state :=
  mk_scan (brace_count s + a) (bracket_count s + b)
          (in_string s) (escape_next s).

(** What a consumer sees of the loop: the messages, and either the state at
    the end of the stream or the exception. *)
Definition seen (r : list json * loop_end) : list json * (acc_state + sdk_error) :=
  (fst r,
   match snd r with
   | Exhausted st => inl st
   | Raised e _ => inr e
   end).

(** The line has something besides white space. *)
Definition nonblank (l : str) : bool := nonempty (strip l).

(** What every state of the accumulator satisfies when it started from the
    initial values: the buffer is at most one character above the ceiling,
    [escape_next] is set only inside a string, and an empty buffer goes with
    the initial counters and flags. *)
Definition acc_ok (st : acc_state) : Prop :=
  len (json_buffer st) <= MAX_BUFFER_SIZE + 1 /\
  (escape_next (scan st) = true -> in_string (scan st) = true) /\
  (json_buffer st = [] -> scan st = scan0).

(** The automaton is inside a container, or the document is complete. *)
Definition opened (ps : Json.pstate) : Prop :=
  Json.stack ps = [] -> is_done ps.


(** A host on which nothing is installed, and one with the binary in the
    second and fourth places of the list. *)
Definition bare_host : host :=
  mk_host (fun _ => None) (lit "/home/u") (fun _ => false) (fun _ => false).

Definition local_host : host :=
  mk_host (fun _ => None) (lit "/home/u")
          (fun _ => true)
          (fun p => str_eqb p (lit "/usr/local/bin/claude")
                    || str_eqb p (lit "/home/u/node_modules/.bin/claude")).

(** Options with nothing set. *)
Definition no_options : ClaudeCodeOptions :=
  mk_options None None [] None [] None None None false None [] NoPath.

(** The optional fields reduced to what [_build_command] tests: an empty
    string and a zero count as not given. *)
Definition normalized (o : ClaudeCodeOptions) : ClaudeCodeOptions :=
  mk_options (given (system_prompt o)) (given (append_system_prompt o))
             (allowed_tools o) (given_int (max_turns o)) (disallowed_tools o)
             (given (model o)) (given (permission_prompt_tool_name o))
             (given (permission_mode o)) (continue_conversation o)
             (given (resume o)) (mcp_servers o) (cwd o).

(** [flag] occurs in [cmd] with [value] as the next argument. *)
Definition has_flag (cmd : list str) (flag : string) (value : str) : Prop :=
  exists before after, cmd = before ++ lit flag :: value :: after.

(** ** Inputs of the scenarios *)


Definition example_value : json :=
  JObject [(lit "a", JInt 1); (lit "b", JArray [JInt 1; JInt 2; JInt 3])].




(** The value of the frame of the second scenario. *)
Definition ok_value : json := JObject [(lit "ok", JBool true)].

(** A child that writes one frame, complains on its diagnostic stream and
    exits; and one that writes the same frame and stays silent. *)
Definition failing_child : transport :=
  mk_transport (Some (mk_process None))
               (Some (mk_stream [jlit "{'ok':true}"] EndOfStream))
               (Some (mk_stream [lit "Error: bad flag"] EndOfStream)).

Definition silent_child : transport :=
  mk_transport (Some (mk_process None))
               (Some (mk_stream [jlit "{'ok':true}"] EndOfStream))
               (Some (mk_stream [] EndOfStream)).

(** An opening bracket followed by [n] digits. *)
Definition bracket_and_digits (n : nat) : str := LBRACKET :: repeat 49%N n.

(** A line of 50 MiB - 1 characters: an opening bracket and digits. *)
Definition long_line : str :=
  bracket_and_digits (Z.to_nat (MAX_BUFFER_SIZE - 2)).

(* ================================================================== *)
(** * What the scanner sees of a JSON document *)

(* ------------------------------------------------------------------ *)

Ltac chars_to_prop :=
  unfold Json.is_ws, Json.is_digit, isspace, DQUOTE, BACKSLASH, LBRACE, RBRACE,
    LBRACKET, RBRACKET, NEWLINE, COMMA, COLON in *;
  repeat match goal with
  | H : context [_ = true] |- _ =>
      first [ rewrite orb_true_iff in H | rewrite andb_true_iff in H
            | rewrite N.eqb_eq in H | rewrite N.leb_le in H
            | rewrite N.ltb_lt in H ]
  | H : context [_ = false] |- _ =>
      first [ rewrite orb_false_iff in H | rewrite andb_false_iff in H
            | rewrite N.eqb_neq in H | rewrite N.leb_gt in H
            | rewrite N.ltb_ge in H ]
  end.

(** Case analysis on every test and every [match] of a hypothesis that says
    a transition succeeded. *)
Ltac split_step H :=
  repeat match type of H with
  | Some _ = Some _ => inversion H; subst; clear H
  | None = Some _ => discriminate H
  | context [if ?b then _ else _] => destruct b eqn:?
  | context [match ?x with _ => _ end] => destruct x eqn:?
  end.

Ltac scan_eq :=
  unfold scan_char, shadow; simpl;
  repeat match goal with
  | |- context [(?c =? ?k)%N] =>
      let E := fresh "E" in
      destruct (c =? k)%N eqn:E
  end;
  chars_to_prop; try discriminate;
  first [ reflexivity | f_equal; lia | exfalso; lia ].

Lemma deliver_shadow stk v ps :
  Json.deliver stk v = Some ps ->
  shadow ps = mk_scan (open_objects stk) (open_arrays stk) false false.
Proof.
  unfold Json.deliver; intros H.
  destruct stk as [|[items|members [k|]] r]; inversion H; subst; reflexivity.
Qed.

Lemma deliver_empty v ps :
  Json.deliver [] v = Some ps -> ps = Json.mk_pstate [] (Json.MDone v).
Proof. simpl; congruence. Qed.

Lemma start_value_shadow stk c ps :
  Json.start_value stk c = Some ps ->
  scan_char (mk_scan (open_objects stk) (open_arrays stk) false false) c
  = shadow ps.
Proof.
  unfold Json.start_value; intros H.
  split_step H; scan_eq.
Qed.

Lemma start_key_shadow stk c ps :
  Json.start_key stk c = Some ps ->
  scan_char (mk_scan (open_objects stk) (open_arrays stk) false false) c
  = shadow ps.
Proof.
  unfold Json.start_key; intros H.
  split_step H; scan_eq.
Qed.

Lemma settled_step_shadow ps c ps' :
  Json.settled_step ps c = Some ps' ->
  scan_char (mk_scan (open_objects (Json.stack ps)) (open_arrays (Json.stack ps))
               false false) c
  = shadow ps'.
Proof.
  unfold Json.settled_step; intros H.
  destruct ps as [stk m]; simpl in *.
  destruct m; try discriminate.
  - destruct (Json.is_ws c) eqn:W.
    + inversion H; subst. scan_eq.
    + destruct stk as [|[items|members [k|]] r]; try discriminate.
      * destruct (c =? COMMA)%N eqn:E1.
        { inversion H; subst. scan_eq. }
        destruct (c =? RBRACKET)%N eqn:E2; try discriminate.
        apply deliver_shadow in H. rewrite H. scan_eq.
      * destruct (c =? COMMA)%N eqn:E1.
        { inversion H; subst. scan_eq. }
        destruct (c =? RBRACE)%N eqn:E2; try discriminate.
        apply deliver_shadow in H. rewrite H. scan_eq.
  - destruct (Json.is_ws c) eqn:W; inversion H; subst. scan_eq.
Qed.

Lemma hex_value_plain c d :
  Json.hex_value c = Some d -> c <> DQUOTE /\ c <> BACKSLASH /\ (32 <= c)%N.
Proof.
  unfold Json.hex_value; intros H.
  split_step H; chars_to_prop; lia.
Qed.

Lemma escape_char_plain c e :
  Json.escape_char c = Some e -> (32 <= c)%N.
Proof.
  unfold Json.escape_char; intros H.
  split_step H; chars_to_prop; lia.
Qed.

Lemma string_step_shadow stk is_key hi chars sm c ps :
  Json.string_step stk is_key hi chars sm c = Some ps ->
  scan_char (shadow (Json.mk_pstate stk (Json.MString is_key hi chars sm))) c
  = shadow ps.
Proof.
  unfold Json.string_step; intros H.
  destruct sm as [| |remaining acc].
  - destruct (c =? DQUOTE)%N eqn:Q.
    + destruct is_key.
      * split_step H; scan_eq.
      * apply deliver_shadow in H. rewrite H. scan_eq.
    + split_step H; scan_eq.
  - split_step H; scan_eq.
  - destruct (Json.hex_value c) as [d|] eqn:Hx; [|discriminate].
    apply hex_value_plain in Hx. destruct Hx as (Hq & Hb & _).
    destruct remaining as [|[|k]]; [discriminate| |].
    + destruct (Json.unicode_escape hi chars (acc * 16 + d)) as [hi' chars'].
      inversion H; subst. scan_eq.
    + inversion H; subst. scan_eq.
Qed.

Lemma literal_char_plain l k e :
  nth_error (Json.literal_text l) k = Some e ->
  (32 < e)%N /\ e <> DQUOTE /\ e <> LBRACE /\ e <> RBRACE /\
  e <> LBRACKET /\ e <> RBRACKET.
Proof.
  intros H.
  destruct l; do 10 (destruct k as [|k];
    [ cbv in H; inversion H; subst; cbv; repeat split; congruence | ]);
  cbv in H; destruct k; discriminate.
Qed.

Lemma literal_step_shadow stk l k c ps :
  Json.literal_step stk l k c = Some ps ->
  scan_char (mk_scan (open_objects stk) (open_arrays stk) false false) c
  = shadow ps.
Proof.
  unfold Json.literal_step; intros H.
  destruct (nth_error (Json.literal_text l) k) as [e|] eqn:Hn; [|discriminate].
  apply literal_char_plain in Hn.
  destruct (c =? e)%N eqn:Ec; [|discriminate].
  apply N.eqb_eq in Ec; subst e.
  destruct Hn as (? & ? & ? & ? & ? & ?).
  destruct (Nat.eqb _ _).
  - apply deliver_shadow in H. rewrite H. scan_eq.
  - inversion H; subst. scan_eq.
Qed.

Lemma number_continue_plain nm c nm' :
  Json.number_continue nm c = Some nm' ->
  (32 < c)%N /\ c <> DQUOTE /\ c <> LBRACE /\ c <> RBRACE /\
  c <> LBRACKET /\ c <> RBRACKET.
Proof.
  unfold Json.number_continue; intros H.
  destruct nm; split_step H; chars_to_prop; lia.
Qed.

(** Every transition of the JSON automaton is mirrored by the scanner. *)
Lemma step_shadow ps c ps' :
  Json.step ps c = Some ps' -> scan_char (shadow ps) c = shadow ps'.
Proof.
  destruct ps as [stk m]; unfold Json.step; cbn [Json.stack Json.pmode].
  intros H.
  destruct m.
  - destruct (Json.is_ws c) eqn:W.
    + inversion H; subst. scan_eq.
    + apply start_value_shadow in H. exact H.
  - destruct (Json.is_ws c) eqn:W.
    { inversion H; subst. scan_eq. }
    destruct (c =? RBRACKET)%N eqn:E.
    + destruct stk as [|[items|members k] r]; try discriminate.
      apply deliver_shadow in H. rewrite H. scan_eq.
    + apply start_value_shadow in H. exact H.
  - destruct (Json.is_ws c) eqn:W.
    { inversion H; subst. scan_eq. }
    destruct (c =? RBRACE)%N eqn:E.
    + destruct stk as [|[items|members [k|]] r]; try discriminate.
      apply deliver_shadow in H. rewrite H. scan_eq.
    + apply start_key_shadow in H. exact H.
  - destruct (Json.is_ws c) eqn:W.
    + inversion H; subst. scan_eq.
    + apply start_key_shadow in H. exact H.
  - split_step H; scan_eq.
  - apply settled_step_shadow in H. exact H.
  - apply settled_step_shadow in H. exact H.
  - apply string_step_shadow in H. exact H.
  - destruct (Json.number_continue nm c) as [nm'|] eqn:Hc.
    + apply number_continue_plain in Hc.
      destruct Hc as (? & ? & ? & ? & ? & ?).
      inversion H; subst. scan_eq.
    + assert (Hs : forall v ps1, Json.deliver stk v = Some ps1 ->
                Json.settled_step ps1 c = Some ps' ->
                scan_char (shadow (Json.mk_pstate stk (Json.MNumber nm lexeme))) c
                = shadow ps').
      { intros v ps1 Hd Hst.
        apply settled_step_shadow in Hst. rewrite <- Hst.
        apply deliver_shadow in Hd.
        unfold shadow in Hd |- *; cbn [Json.stack Json.pmode] in *.
        inversion Hd. rewrite H1, H2. reflexivity. }
      destruct nm; cbn [Json.number_value] in H;
        try discriminate;
        try (destruct (Json.deliver stk _) as [ps1|] eqn:Hd;
             [ eapply Hs; eassumption | discriminate ]).
      split_step H; scan_eq.
  - apply literal_step_shadow in H. exact H.
Qed.

Lemma scan_line_app s a b :
  scan_line s (a ++ b) = scan_line (scan_line s a) b.
Proof. unfold scan_line. apply fold_left_app. Qed.

Lemma run_app ps a b :
  Json.run ps (a ++ b) =
  match Json.run ps a with
  | Some ps' => Json.run ps' b
  | None => None
  end.
Proof.
  revert ps; induction a as [|c a IH]; intros ps; simpl.
  - reflexivity.
  - destruct (Json.step ps c); [apply IH | reflexivity].
Qed.

Lemma run_shadow s : forall ps ps',
  Json.run ps s = Some ps' -> scan_line (shadow ps) s = shadow ps'.
Proof.
  induction s as [|c s IH]; intros ps ps' H; simpl in H.
  - inversion H; reflexivity.
  - destruct (Json.step ps c) as [ps1|] eqn:Hs; [|discriminate].
    apply step_shadow in Hs.
    unfold scan_line in *; simpl. rewrite Hs. apply IH, H.
Qed.

(** A complete document leaves the scanner balanced and outside strings. *)
Lemma finish_balanced ps v :
  Json.finish ps = Some v -> balanced (shadow ps) = true.
Proof.
  destruct ps as [stk m]; unfold Json.finish; cbn [Json.stack Json.pmode].
  intros H. destruct m; try discriminate; destruct stk; try discriminate;
    reflexivity.
Qed.

Lemma finish_scalar_top ps v : Json.finish ps = Some v -> scalar_top ps.
Proof.
  destruct ps as [stk m]; unfold Json.finish, scalar_top;
    cbn [Json.stack Json.pmode].
  intros H. destruct m; try discriminate; destruct stk; try discriminate;
    split; trivial.
Qed.

(** No line break inside a string: strict decoding refuses control
    characters there. *)
Lemma newline_outside_string ps ps' :
  Json.step ps NEWLINE = Some ps' -> in_string (shadow ps) = false.
Proof.
  destruct ps as [stk m]; unfold Json.step, shadow; cbn [Json.stack Json.pmode].
  destruct m; try reflexivity.
  intros H. exfalso. unfold Json.string_step in H.
  destruct sm as [| |[|[|k]] acc]; cbv in H; try discriminate;
    destruct is_key; try discriminate;
    destruct stk as [|[|? []] ?]; discriminate.
Qed.

Lemma scan_char_outside s c :
  in_string s = false ->
  c <> DQUOTE -> c <> LBRACE -> c <> RBRACE -> c <> LBRACKET -> c <> RBRACKET ->
  scan_char s c = s.
Proof.
  intros Hs H1 H2 H3 H4 H5. unfold scan_char. rewrite Hs.
  apply N.eqb_neq in H1, H2, H3, H4, H5.
  rewrite H1, H2, H3, H4, H5. reflexivity.
Qed.

Lemma newline_shadow ps ps' :
  Json.step ps NEWLINE = Some ps' -> shadow ps' = shadow ps.
Proof.
  intros H. pose proof (newline_outside_string _ _ H) as Hs.
  apply step_shadow in H. rewrite <- H.
  apply scan_char_outside; [exact Hs | discriminate ..].
Qed.

Lemma deliver_top v ps :
  Json.deliver [] v = Some ps -> is_done ps /\ scalar_top ps.
Proof.
  intros H; apply deliver_empty in H; subst; repeat split.
Qed.

Lemma settled_step_top ps c ps' :
  is_done ps -> Json.stack ps = [] ->
  Json.settled_step ps c = Some ps' ->
  Json.is_ws c = true /\ ps' = ps.
Proof.
  destruct ps as [stk m]; unfold is_done, Json.settled_step;
    cbn [Json.stack Json.pmode].
  intros Hd Hstk H. destruct m; try contradiction.
  destruct (Json.is_ws c); [|discriminate].
  inversion H; auto.
Qed.

Ltac top_done := split; [reflexivity | exact I].

(** Once a top-level scalar has started, the stack stays empty. *)
Lemma scalar_top_step ps c ps' :
  scalar_top ps -> Json.step ps c = Some ps' -> scalar_top ps'.
Proof.
  destruct ps as [stk m]; unfold scalar_top at 1; cbn [Json.stack Json.pmode].
  intros [Hstk Hm] H; subst stk. unfold Json.step in H;
    cbn [Json.stack Json.pmode] in H.
  destruct m; try contradiction.
  - apply settled_step_top in H; [|exact I|reflexivity].
    destruct H as [_ ->]. top_done.
  - destruct is_key; [contradiction|].
    unfold Json.string_step in H.
    destruct sm as [| |remaining acc].
    + cbn [Json.deliver] in H.
      split_step H; top_done.
    + split_step H; top_done.
    + destruct (Json.hex_value c); [|discriminate].
      destruct remaining as [|[|k]]; [discriminate| |].
      * destruct (Json.unicode_escape hi chars _).
        inversion H; top_done.
      * inversion H; top_done.
  - destruct (Json.number_continue nm c).
    + inversion H; top_done.
    + destruct nm; cbn [Json.number_value Json.deliver] in H;
        try discriminate;
        try (apply settled_step_top in H; [|exact I|reflexivity];
             destruct H as [_ ->]; top_done).
      split_step H; top_done.
  - unfold Json.literal_step in H. cbn [Json.deliver] in H.
    split_step H; top_done.
Qed.

(** A line break after a top-level scalar has started can only come once the
    document is complete. *)
Lemma scalar_top_newline ps ps' :
  scalar_top ps -> Json.step ps NEWLINE = Some ps' ->
  is_done ps' /\ Json.stack ps' = [].
Proof.
  intros Ht H.
  pose proof (newline_outside_string _ _ H) as Hs.
  destruct ps as [stk m]; destruct Ht as [Hstk Hm];
    cbn [Json.stack Json.pmode] in *; subst stk.
  unfold Json.step in H; cbn [Json.stack Json.pmode] in H.
  destruct m; try contradiction.
  - apply settled_step_top in H; [|exact I|reflexivity].
    destruct H as [_ ->]. split; [exact I|reflexivity].
  - discriminate Hs.
  - destruct nm; cbv in H; try discriminate; inversion H;
      (split; [exact I|reflexivity]).
  - unfold Json.literal_step in H.
    destruct (nth_error (Json.literal_text l) matched) as [e|] eqn:Hn;
      [|discriminate].
    apply literal_char_plain in Hn. destruct Hn as (Hn & _).
    destruct (NEWLINE =? e)%N eqn:E; [|discriminate].
    apply N.eqb_eq in E; subst e. cbv in Hn. discriminate.
Qed.

Lemma done_step ps c ps' :
  is_done ps -> Json.stack ps = [] -> Json.step ps c = Some ps' ->
  Json.is_ws c = true /\ ps' = ps.
Proof.
  intros Hd Hstk H. destruct ps as [stk m]. unfold is_done in Hd.
  cbn [Json.pmode] in Hd. destruct m; try contradiction.
  unfold Json.step in H; cbn [Json.pmode] in H.
  eapply settled_step_top; [exact I | exact Hstk | exact H].
Qed.

(** After the document is complete only JSON white space is accepted. *)
Lemma done_run s : forall ps ps',
  is_done ps -> Json.stack ps = [] -> Json.run ps s = Some ps' ->
  Forall (fun c => Json.is_ws c = true) s.
Proof.
  induction s as [|c s IH]; intros ps ps' Hd Hstk H; simpl in H.
  - constructor.
  - destruct (Json.step ps c) as [ps1|] eqn:Hs; [|discriminate].
    destruct (done_step _ _ _ Hd Hstk Hs) as [Hw ->].
    constructor; [exact Hw | eapply IH; eauto].
Qed.

Lemma scalar_top_run s : forall ps ps',
  scalar_top ps -> Json.run ps s = Some ps' -> scalar_top ps'.
Proof.
  induction s as [|c s IH]; intros ps ps' Ht H; simpl in H.
  - inversion H; subst; exact Ht.
  - destruct (Json.step ps c) as [ps1|] eqn:Hs; [|discriminate].
    eapply IH; [eapply scalar_top_step; eauto | exact H].
Qed.

(** The first character of a document that is not an opening brace or
    bracket starts a top-level scalar. *)
Lemma first_char_scalar c ps :
  Json.step Json.init c = Some ps ->
  Json.is_ws c = false -> c <> LBRACE -> c <> LBRACKET ->
  scalar_top ps.
Proof.
  unfold Json.step, Json.init; cbn [Json.stack Json.pmode].
  intros H W Hb Hk. rewrite W in H. unfold Json.start_value in H.
  apply N.eqb_neq in Hb, Hk. rewrite Hb, Hk in H.
  split_step H; top_done.
Qed.

(* ================================================================== *)
(** * The decoder on sample documents *)

Example json_loads_accepts :
  json_loads (jlit "{'a':1,'b':[1,2,3]}") = Some example_value /\
  json_loads (jlit " [ true , false , null ] ")
  = Some (JArray [JBool true; JBool false; JNull]) /\
  json_loads (jlit "{'k':1,'j':2,'k':3}")
  = Some (JObject [(lit "k", JInt 3); (lit "j", JInt 2)]) /\
  json_loads (jlit "-12") = Some (JInt (-12)) /\
  json_loads (jlit "1.5e-3") = Some (JFloat (lit "1.5e-3")) /\
  json_loads (jlit "'\u0041\n\ud83d\ude00'")
  = Some (JString [65%N; 10%N; 128512%N]) /\
  json_loads (jlit "[-Infinity,NaN]")
  = Some (JArray [JFloat (lit "-Infinity"); JFloat (lit "NaN")]).
Proof. repeat split; vm_compute; reflexivity. Qed.

Example json_loads_rejects :
  map json_loads
    [jlit ""; jlit "01"; jlit "1."; jlit "-"; jlit "[1,]"; jlit "{'a':1,}";
     jlit "{'a' 1}"; jlit "[1 2]"; jlit "nul"; jlit "'a\qb'"; jlit "'ab";
     jlit "[1]]"; jlit "{} x"; jlit "'a" ++ NEWLINE :: jlit "b'";
     Json.BOM :: jlit "1"; 11%N :: jlit "1"]
  = repeat None 16.
Proof. vm_compute. reflexivity. Qed.

(* ================================================================== *)
(** * Text lemmas *)

Lemma len_app a b : len (a ++ b) = len a + len b.
Proof. unfold len. rewrite length_app. lia. Qed.

Lemma len_cons c s : len (c :: s) = 1 + len s.
Proof. unfold len. simpl length. lia. Qed.

Lemma len_nonneg s : 0 <= len s.
Proof. unfold len. lia. Qed.

Lemma startswith_nil s : startswith s [] = true.
Proof. destruct s; reflexivity. Qed.

Lemma len_append_line b line_str :
  len b + len line_str <= len (append_line b line_str).
Proof.
  destruct b as [|c b]; cbn [append_line].
  - change (len []) with 0. lia.
  - rewrite len_app, !len_cons. lia.
Qed.

Lemma nonempty_true s : nonempty s = true <-> s <> [].
Proof. destruct s; simpl; split; congruence. Qed.

Lemma lstrip_head s c r : lstrip s = c :: r -> isspace c = false.
Proof.
  induction s as [|a s IH]; simpl; [discriminate|].
  destruct (isspace a) eqn:E; [exact IH|].
  intros H; inversion H; subst; exact E.
Qed.

Lemma lstrip_keeps_last x c :
  isspace c = false -> exists y, lstrip (x ++ [c]) = y ++ [c].
Proof.
  intros Hc. induction x as [|a x IH]; simpl.
  - rewrite Hc. exists []. reflexivity.
  - destruct (isspace a).
    + exact IH.
    + exists (a :: x). reflexivity.
Qed.

(** A stripped line starts with a character that is not white space. *)
Lemma strip_head s c r : strip s = c :: r -> isspace c = false.
Proof.
  unfold strip, rstrip. intros H.
  destruct (lstrip s) as [|c0 t] eqn:Hl.
  - simpl in H. discriminate.
  - pose proof (lstrip_head _ _ _ Hl) as Hc0.
    simpl rev in H.
    destruct (lstrip_keeps_last (rev t) c0 Hc0) as [y Hy].
    rewrite Hy, rev_app_distr in H. simpl in H.
    inversion H; subst; exact Hc0.
Qed.

Lemma is_ws_isspace c : Json.is_ws c = true -> isspace c = true.
Proof.
  intros H. unfold isspace.
  chars_to_prop.
  destruct H as [[[H|H]|H]|H]; subst; reflexivity.
Qed.

Lemma not_isspace_not_ws c : isspace c = false -> Json.is_ws c = false.
Proof.
  intros H. destruct (Json.is_ws c) eqn:W; [|reflexivity].
  apply is_ws_isspace in W. congruence.
Qed.

Lemma join_lines_cons a m :
  join_lines (a :: m) = a ++ concat (map (fun l => NEWLINE :: l) m).
Proof.
  revert a; induction m as [|b m IH]; intros a.
  - simpl. rewrite app_nil_r. reflexivity.
  - change (join_lines (a :: b :: m)) with (a ++ NEWLINE :: join_lines (b :: m)).
    rewrite IH. reflexivity.
Qed.

(* ================================================================== *)
(** * The accumulator on the fragments of one document *)

Lemma run_app_inv ps a b psF :
  Json.run ps (a ++ b) = Some psF ->
  exists ps', Json.run ps a = Some ps' /\ Json.run ps' b = Some psF.
Proof.
  rewrite run_app. destruct (Json.run ps a) as [ps'|]; [|discriminate].
  intros H; exists ps'; auto.
Qed.

Lemma run_init_no_bom s ps :
  Json.run Json.init s = Some ps -> startswith s [Json.BOM] = false.
Proof.
  destruct s as [|c s]; [reflexivity|].
  simpl. destruct (c =? Json.BOM)%N eqn:E; [|reflexivity].
  apply N.eqb_eq in E; subst c. cbv. discriminate.
Qed.

Lemma json_loads_run s ps :
  Json.run Json.init s = Some ps -> json_loads s = Json.finish ps.
Proof.
  intros H. unfold json_loads.
  rewrite (run_init_no_bom _ _ H), H. reflexivity.
Qed.

Lemma json_loads_inv s v :
  json_loads s = Some v ->
  exists ps, Json.run Json.init s = Some ps /\ Json.finish ps = Some v.
Proof.
  unfold json_loads. destruct (startswith s [Json.BOM]); [discriminate|].
  destruct (Json.run Json.init s) as [ps|]; [|discriminate].
  intros H; exists ps; auto.
Qed.

(** A document cannot continue on a new line after a top-level scalar. *)
Lemma no_text_after_scalar ps c rest psF :
  scalar_top ps -> Json.is_ws c = false ->
  Json.run ps (NEWLINE :: c :: rest) = Some psF -> False.
Proof.
  intros Ht Hc H. simpl in H.
  destruct (Json.step ps NEWLINE) as [ps1|] eqn:Hs; [|discriminate].
  destruct (scalar_top_newline _ _ Ht Hs) as [Hd Hstk].
  destruct (Json.step ps1 c) as [ps2|] eqn:Hs2; [|discriminate].
  destruct (done_step _ _ _ Hd Hstk Hs2) as [Hw _]. congruence.
Qed.

Lemma complete_check_last p ps v :
  p <> [] -> Json.run Json.init p = Some ps -> Json.finish ps = Some v ->
  complete_check p (shadow ps) = Yield v acc0.
Proof.
  intros Hp Hr Hf. unfold complete_check.
  apply nonempty_true in Hp. rewrite Hp, (finish_balanced _ _ Hf).
  cbn [andb]. rewrite (json_loads_run _ _ Hr), Hf. reflexivity.
Qed.

Lemma complete_check_more c0 p' ps c rest psF :
  Json.is_ws c0 = false ->
  Json.run Json.init (c0 :: p') = Some ps ->
  Json.run ps (NEWLINE :: c :: rest) = Some psF ->
  Json.is_ws c = false ->
  len (c0 :: p') < MAX_BUFFER_SIZE ->
  complete_check (c0 :: p') (shadow ps) = Continue (mk_acc (c0 :: p') (shadow ps)).
Proof.
  intros Hc0 Hr Hrest Hc Hlen. unfold complete_check.
  destruct (nonempty (c0 :: p') && balanced (shadow ps)); [|reflexivity].
  rewrite (json_loads_run _ _ Hr).
  destruct (Json.finish ps) as [v'|] eqn:Hf.
  - exfalso. apply finish_scalar_top in Hf.
    eapply no_text_after_scalar; eauto.
  - destruct (looks_like_json (c0 :: p')) eqn:Hl.
    + apply Z.ltb_lt in Hlen. rewrite Hlen. reflexivity.
    + exfalso. unfold looks_like_json in Hl. simpl in Hl.
      rewrite !startswith_nil, !andb_true_r in Hl. apply orb_false_iff in Hl.
      destruct Hl as [Hb Hk]. apply N.eqb_neq in Hb, Hk.
      simpl in Hr.
      destruct (Json.step Json.init c0) as [ps0|] eqn:Hs; [|discriminate].
      pose proof (first_char_scalar _ _ Hs Hc0 Hb Hk) as Ht.
      pose proof (scalar_top_run _ _ _ Ht Hr) as Ht'.
      eapply no_text_after_scalar; eauto.
Qed.

Lemma continuation_cons l rest :
  continuation (l :: rest) = NEWLINE :: strip l ++ continuation rest.
Proof. reflexivity. Qed.

Lemma feed_fragments v : forall rest c0 p' ps,
  Json.is_ws c0 = false ->
  Json.run Json.init (c0 :: p') = Some ps ->
  Forall (fun l => strip l <> []) rest ->
  rest <> [] ->
  json_loads ((c0 :: p') ++ continuation rest) = Some v ->
  len ((c0 :: p') ++ continuation rest) <= MAX_BUFFER_SIZE ->
  exists front last mid,
    rest = front ++ [last] /\
    feed_all (mk_acc (c0 :: p') (shadow ps)) front = ([], Exhausted mid) /\
    feed mid last = Yield v acc0.
Proof.
  induction rest as [|l rest IH]; intros c0 p' ps Hc0 Hr Hall Hne Hj Hlen;
    [congruence|].
  inversion Hall as [|? ? Hl Hall']; subst.
  set (p := c0 :: p') in *.
  set (st := mk_acc p (shadow ps)).
  rewrite continuation_cons in Hj, Hlen.
  assert (Happ : append_line p (strip l) = c0 :: (p' ++ NEWLINE :: strip l))
    by reflexivity.
  assert (Hjoin : p ++ NEWLINE :: strip l ++ continuation rest
                  = (c0 :: (p' ++ NEWLINE :: strip l)) ++ continuation rest).
  { unfold p. simpl. rewrite <- app_assoc. reflexivity. }
  rewrite Hjoin in Hj, Hlen.
  destruct (json_loads_inv _ _ Hj) as (psF & HrF & HfF).
  destruct (run_app_inv _ _ _ _ HrF) as (ps1 & Hr1 & Hr1F).
  (* the scanner after this line *)
  assert (Hscan : scan_line (shadow ps) (strip l) = shadow ps1).
  { change (c0 :: p' ++ NEWLINE :: strip l)
      with (p ++ [NEWLINE] ++ strip l) in Hr1.
    apply run_app_inv in Hr1. destruct Hr1 as (psa & Ha & Hb).
    rewrite Hr in Ha. inversion Ha; subst psa.
    apply run_app_inv in Hb. destruct Hb as (psn & Hn & Hb).
    simpl in Hn.
    destruct (Json.step ps NEWLINE) as [psn'|] eqn:Hsn; [|discriminate].
    inversion Hn; subst psn'.
    rewrite <- (newline_shadow _ _ Hsn).
    apply run_shadow, Hb. }
  assert (Hfeed : feed st l
                  = complete_check (c0 :: (p' ++ NEWLINE :: strip l)) (shadow ps1)).
  { unfold feed. apply nonempty_true in Hl. rewrite Hl.
    cbn [st json_buffer scan].
    replace (len p + len (strip l) >? MAX_BUFFER_SIZE) with false.
    - rewrite Happ, Hscan. reflexivity.
    - symmetry. rewrite Z.gtb_ltb. apply Z.ltb_ge.
      rewrite len_app in Hlen. rewrite len_cons, len_app, len_cons in Hlen.
      unfold p. rewrite len_cons.
      pose proof (len_nonneg (continuation rest)). lia. }
  destruct rest as [|l2 rest2].
  - (* this was the last fragment *)
    exists [], l, st. repeat split.
    rewrite Hfeed. simpl in Hr1F. inversion Hr1F; subst ps1.
    apply complete_check_last; [discriminate | exact Hr1 | exact HfF].
  - (* more fragments follow *)
    inversion Hall' as [|? ? Hl2 _]; subst.
    destruct (strip l2) as [|c2 r2] eqn:Hs2; [congruence|].
    pose proof (not_isspace_not_ws _ (strip_head _ _ _ Hs2)) as Hc2.
    assert (Hcont : feed st l
                    = Continue (mk_acc (c0 :: (p' ++ NEWLINE :: strip l))
                                       (shadow ps1))).
    { rewrite Hfeed.
      rewrite continuation_cons, Hs2 in Hr1F.
      eapply complete_check_more; eauto.
      rewrite continuation_cons, Hs2 in Hlen.
      rewrite len_app, !len_cons in Hlen. rewrite len_cons.
      pose proof (len_nonneg ((c2 :: r2) ++ continuation rest2)). lia. }
    destruct (IH c0 (p' ++ NEWLINE :: strip l) ps1 Hc0 Hr1 Hall')
      as (front & last & mid & Hsplit & Hfront & Hlast);
      [discriminate | exact Hj | exact Hlen |].
    exists (l :: front), last, mid. repeat split.
    + rewrite Hsplit. reflexivity.
    + cbn [feed_all]. rewrite Hcont. exact Hfront.
    + exact Hlast.
Qed.

Lemma feed_all_app st a b mid :
  feed_all st a = ([], Exhausted mid) ->
  feed_all st (a ++ b) = feed_all mid b.
Proof.
  revert st; induction a as [|l a IH]; intros st H; simpl in *.
  - inversion H; reflexivity.
  - destruct (feed st l) as [st'|d st'|e].
    + apply IH, H.
    + destruct (feed_all st' a); discriminate.
    + discriminate.
Qed.

Lemma continuation_join l rest :
  join_lines (map strip (l :: rest)) = strip l ++ continuation rest.
Proof.
  cbn [map]. rewrite join_lines_cons. unfold continuation.
  rewrite map_map. reflexivity.
Qed.

(** From a fresh accumulator, the fragments of one document give nothing
    before the last line and the parsed document on the last line. *)
Lemma fragments_from_fresh lines v :
  lines <> [] ->
  Forall (fun l => strip l <> []) lines ->
  json_loads (join_lines (map strip lines)) = Some v ->
  len (join_lines (map strip lines)) <= MAX_BUFFER_SIZE ->
  exists front last mid,
    lines = front ++ [last] /\
    feed_all acc0 front = ([], Exhausted mid) /\
    feed mid last = Yield v acc0.
Proof.
  intros Hne Hall Hj Hlen.
  destruct lines as [|l rest]; [congruence|].
  inversion Hall as [|? ? Hl Hall']; subst.
  rewrite continuation_join in Hj, Hlen.
  destruct (strip l) as [|c0 p'] eqn:Hs; [congruence|].
  pose proof (not_isspace_not_ws _ (strip_head _ _ _ Hs)) as Hc0.
  destruct (json_loads_inv _ _ Hj) as (psF & HrF & HfF).
  destruct (run_app_inv _ _ _ _ HrF) as (ps & Hr & Hrest).
  assert (Hfeed : feed acc0 l = complete_check (c0 :: p') (shadow ps)).
  { unfold feed. rewrite Hs. cbn [nonempty acc0 json_buffer scan append_line].
    replace (len [] + len (c0 :: p') >? MAX_BUFFER_SIZE) with false.
    - rewrite <- (run_shadow _ _ _ Hr). reflexivity.
    - symmetry. rewrite Z.gtb_ltb. apply Z.ltb_ge.
      rewrite len_app in Hlen. pose proof (len_nonneg (continuation rest)).
      change (len []) with 0. lia. }
  destruct rest as [|l2 rest2].
  - exists [], l, acc0. repeat split.
    rewrite Hfeed. simpl in Hrest. inversion Hrest; subst ps.
    apply complete_check_last; [discriminate | exact Hr | exact HfF].
  - inversion Hall' as [|? ? Hl2 _]; subst.
    destruct (strip l2) as [|c2 r2] eqn:Hs2; [congruence|].
    pose proof (not_isspace_not_ws _ (strip_head _ _ _ Hs2)) as Hc2.
    assert (Hcont : feed acc0 l = Continue (mk_acc (c0 :: p') (shadow ps))).
    { rewrite Hfeed. pose proof Hrest as Hrest'.
      rewrite continuation_cons, Hs2 in Hrest'.
      eapply complete_check_more; eauto.
      rewrite continuation_cons, Hs2, len_app, !len_cons in Hlen.
      rewrite len_cons.
      pose proof (len_nonneg (r2 ++ continuation rest2)).
      change ((c2 :: r2) ++ continuation rest2)
        with (c2 :: r2 ++ continuation rest2) in Hlen.
      rewrite len_cons in Hlen. lia. }
    destruct (feed_fragments v (l2 :: rest2) c0 p' ps Hc0 Hr Hall')
      as (front & last & mid & Hsplit & Hfront & Hlast);
      [discriminate | exact Hj | exact Hlen |].
    exists (l :: front), last, mid. repeat split.
    + rewrite Hsplit. reflexivity.
    + cbn [feed_all]. rewrite Hcont. exact Hfront.
    + exact Hlast.
Qed.

Lemma fragments_total lines v :
  lines <> [] ->
  Forall (fun l => strip l <> []) lines ->
  json_loads (join_lines (map strip lines)) = Some v ->
  len (join_lines (map strip lines)) <= MAX_BUFFER_SIZE ->
  feed_all acc0 lines = ([v], Exhausted acc0).
Proof.
  intros Hne Hall Hj Hlen.
  destruct (fragments_from_fresh lines v Hne Hall Hj Hlen)
    as (front & last & mid & -> & Hfront & Hlast).
  rewrite (feed_all_app _ _ _ _ Hfront). cbn [feed_all].
  rewrite Hlast. reflexivity.
Qed.


(* ================================================================== *)
(** * C1: a value split over several lines *)




(* ================================================================== *)
(** * C2: brackets and escaped quotes inside strings *)





(* ================================================================== *)
(** * What one line can do *)

Lemma complete_check_cases b s :
  (exists e, complete_check b s = Raise e /\ MAX_BUFFER_SIZE <= len b) \/
  (exists d, complete_check b s = Yield d acc0 /\ json_loads b = Some d) \/
  complete_check b s = Continue (mk_acc b s) \/
  (complete_check b s = Continue acc0 /\
   balanced s = true /\ json_loads b = None /\ looks_like_json b = false).
Proof.
  unfold complete_check.
  destruct (nonempty b && balanced s) eqn:Hc; [|auto].
  apply andb_true_iff in Hc. destruct Hc as [_ Hb].
  destruct (json_loads b) as [d|]; [right; left; eauto|].
  destruct (looks_like_json b).
  - destruct (len b <? MAX_BUFFER_SIZE) eqn:Hl; [auto|].
    apply Z.ltb_ge in Hl. left; eauto.
  - right; right; right. auto.
Qed.

Lemma append_line_nonempty b line_str :
  nonempty line_str = true -> nonempty (append_line b line_str) = true.
Proof. destruct b; [auto | reflexivity]. Qed.

Lemma feed_blank st l : strip l = [] -> feed st l = Continue st.
Proof. intros H. unfold feed. rewrite H. reflexivity. Qed.

Lemma feed_cases st l :
  (strip l = [] /\ feed st l = Continue st) \/
  (strip l <> [] /\
   ((exists e, feed st l = Raise e /\
               MAX_BUFFER_SIZE
               <= len (append_line (json_buffer st) (strip l))) \/
    (exists d, feed st l = Yield d acc0 /\
               json_loads (append_line (json_buffer st) (strip l)) = Some d) \/
    (exists s, feed st l
               = Continue (mk_acc (append_line (json_buffer st) (strip l)) s)) \/
    feed st l = Continue acc0)).
Proof.
  destruct (strip l) as [|c r] eqn:Hs.
  - left. split; [reflexivity | apply feed_blank, Hs].
  - right. split; [discriminate|].
    unfold feed. rewrite Hs. cbn [nonempty].
    destruct (len (json_buffer st) + len (c :: r) >? MAX_BUFFER_SIZE) eqn:Hg.
    { left. exists overflow_error. split; [reflexivity|].
      rewrite Z.gtb_ltb in Hg. apply Z.ltb_lt in Hg.
      pose proof (len_append_line (json_buffer st) (c :: r)). lia. }
    destruct (complete_check_cases (append_line (json_buffer st) (c :: r))
                (scan_line (scan st) (c :: r)))
      as [He|[Hy|[Hc|[Hc _]]]]; eauto.
Qed.

Lemma pending_blank b l rest :
  strip l = [] -> pending b (l :: rest) = pending b rest.
Proof. intros H. unfold pending. simpl. rewrite H. reflexivity. Qed.

Lemma pending_line b l rest :
  strip l <> [] ->
  pending b (l :: rest) = pending (append_line b (strip l)) rest.
Proof.
  intros H. apply nonempty_true in H. unfold pending. simpl.
  rewrite H. reflexivity.
Qed.

Lemma pending_from c b lines :
  pending (c :: b) lines
  = (c :: b) ++ concat (map (fun l => NEWLINE :: l)
                            (filter nonempty (map strip lines))).
Proof.
  revert c b; induction lines as [|l lines IH]; intros c b.
  - simpl. rewrite app_nil_r. reflexivity.
  - destruct (strip l) as [|c1 r1] eqn:Hs.
    + rewrite pending_blank by exact Hs. cbn [map filter]. rewrite Hs.
      cbn [nonempty]. apply IH.
    + rewrite pending_line by congruence. cbn [map filter]. rewrite Hs.
      cbn [nonempty append_line map concat].
      change ((c :: b) ++ NEWLINE :: c1 :: r1)
        with (c :: (b ++ NEWLINE :: c1 :: r1)).
      rewrite IH. simpl. rewrite <- app_assoc. reflexivity.
Qed.

(** Successive non-blank lines are joined, stripped, by single newlines. *)
Lemma pending_join lines :
  pending [] lines = join_lines (filter nonempty (map strip lines)).
Proof.
  induction lines as [|l lines IH].
  - reflexivity.
  - destruct (strip l) as [|c1 r1] eqn:Hs.
    + rewrite pending_blank by exact Hs. cbn [map filter]. rewrite Hs.
      cbn [nonempty]. exact IH.
    + rewrite pending_line by congruence. cbn [map filter]. rewrite Hs.
      cbn [nonempty append_line]. rewrite pending_from, join_lines_cons.
      reflexivity.
Qed.

(** Every value yielded is the parse of the buffer built from a run of
    consecutive lines; the run may take up the initial buffer only when it
    starts at the first line. *)
Lemma yielded_origin : forall lines st v,
  In v (fst (feed_all st lines)) ->
  exists pre frag post b,
    lines = pre ++ frag ++ post /\
    (b = [] \/ (b = json_buffer st /\ pre = [])) /\
    json_loads (pending b frag) = Some v.
Proof.
  induction lines as [|l lines IH]; intros st v Hin; [contradiction|].
  cbn [feed_all] in Hin.
  destruct (feed_cases st l)
    as [[Hs Hf]|[Hs [[e [Hf _]]|[[d [Hf Hd]]|[[s Hf]|Hf]]]]];
    rewrite Hf in Hin.
  - destruct (IH _ _ Hin) as (pre & frag & post & b & Hl & Hb & Hj).
    destruct Hb as [->|[-> ->]].
    + exists (l :: pre), frag, post, []. subst lines. auto.
    + exists [], (l :: frag), post, (json_buffer st). subst lines.
      repeat split; auto. rewrite pending_blank by exact Hs. exact Hj.
  - contradiction.
  - destruct (feed_all acc0 lines) as [out e] eqn:Hrest.
    cbn [fst] in Hin. destruct Hin as [->|Hin].
    + exists [], [l], lines, (json_buffer st). repeat split; auto.
      rewrite pending_line by exact Hs. exact Hd.
    + assert (Hin' : In v (fst (feed_all acc0 lines)))
        by (rewrite Hrest; exact Hin).
      destruct (IH _ _ Hin') as (pre & frag & post & b & Hl & Hb & Hj).
      exists (l :: pre), frag, post, []. subst lines.
      repeat split; auto.
      destruct Hb as [->|[-> _]]; exact Hj.
  - destruct (IH _ _ Hin) as (pre & frag & post & b & Hl & Hb & Hj).
    destruct Hb as [->|[-> ->]].
    + exists (l :: pre), frag, post, []. subst lines. auto.
    + exists [], (l :: frag), post, (json_buffer st). subst lines.
      repeat split; auto. rewrite pending_line by exact Hs. exact Hj.
  - destruct (IH _ _ Hin) as (pre & frag & post & b & Hl & Hb & Hj).
    exists (l :: pre), frag, post, []. subst lines.
    repeat split; auto.
    destruct Hb as [->|[-> _]]; exact Hj.
Qed.


(* ================================================================== *)
(** * C3: a balanced buffer that is not JSON *)

(** C3.  When a line brings the buffer to a balanced state outside any
    string, the buffer fails to parse and starts with neither an opening
    brace nor an opening bracket, the accumulator yields nothing, raises
    nothing and continues from the values it had before the first line
    (empty buffer, zero counters, cleared flags).  The lines that follow are
    therefore handled as by a fresh accumulator; in particular the fragments
    of a valid document that follow are yielded as one value. *)
Theorem malformed_frame_discarded (st : acc_state) (line : str) :
  strip line <> [] ->
  len (json_buffer st) + len (strip line) <= MAX_BUFFER_SIZE ->
  balanced (scan_line (scan st) (strip line)) = true ->
  json_loads (append_line (json_buffer st) (strip line)) = None ->
  looks_like_json (append_line (json_buffer st) (strip line)) = false ->
  feed st line = Continue acc0 /\
  (forall rest, feed_all st (line :: rest) = feed_all acc0 rest) /\
  (forall lines v,
     lines <> [] ->
     Forall (fun l => strip l <> []) lines ->
     json_loads (join_lines (map strip lines)) = Some v ->
     len (join_lines (map strip lines)) <= MAX_BUFFER_SIZE ->
     feed_all st (line :: lines) = ([v], Exhausted acc0)).
Proof.
  intros Hs Hlen Hbal Hj Hlook.
  assert (Hfeed : feed st line = Continue acc0).
  { unfold feed. apply nonempty_true in Hs. rewrite Hs.
    replace (len (json_buffer st) + len (strip line) >? MAX_BUFFER_SIZE)
      with false by (symmetry; rewrite Z.gtb_ltb; apply Z.ltb_ge; lia).
    unfold complete_check. rewrite Hbal, Hj, Hlook.
    rewrite append_line_nonempty by exact Hs. reflexivity. }
  split; [exact Hfeed|]. split.
  - intros rest. cbn [feed_all]. rewrite Hfeed. reflexivity.
  - intros lines v H1 H2 H3 H4. cbn [feed_all]. rewrite Hfeed.
    apply fragments_total; assumption.
Qed.

Lemma malformed_frame_discarded_witness :
  feed acc0 (lit "not json") = Continue acc0 /\
  (forall rest, feed_all acc0 (lit "not json" :: rest) = feed_all acc0 rest) /\
  (forall lines v,
     lines <> [] ->
     Forall (fun l => strip l <> []) lines ->
     json_loads (join_lines (map strip lines)) = Some v ->
     len (join_lines (map strip lines)) <= MAX_BUFFER_SIZE ->
     feed_all acc0 (lit "not json" :: lines) = ([v], Exhausted acc0)).
Proof.
  apply (malformed_frame_discarded acc0 (lit "not json")).
  - vm_compute. discriminate.
  - vm_compute. discriminate.
  - vm_compute. reflexivity.
  - vm_compute. reflexivity.
  - vm_compute. reflexivity.
Defined.

(** The scenario of the specification: a stray line, then a frame. *)
Example stray_line_then_frame :
  feed_all acc0 [lit "not json"] = ([], Exhausted acc0) /\
  feed_all acc0 [lit "not json"; jlit "{'ok':true}"]
  = ([ok_value], Exhausted acc0).
Proof. split; vm_compute; reflexivity. Qed.

(** Outside the condition of C3: a stray line with an unmatched bracket is
    not balanced, so it stays in the buffer and the frame that follows is
    appended to it. *)
Example unbalanced_stray_line_kept :
  feed_all acc0 [lit "warn: [unclosed"; jlit "{'ok':true}"]
  = ([], Exhausted (mk_acc (lit "warn: [unclosed" ++ NEWLINE :: jlit "{'ok':true}")
                           (mk_scan 0 1 false false))).
Proof. vm_compute. reflexivity. Qed.

(* ================================================================== *)
(** * C6: what is yielded *)

Lemma yielded_receive t code v :
  In v (yielded (receive_messages t code)) ->
  exists out, _stdout_stream t = Some out /\
              In v (fst (feed_all acc0 (chunks out))).
Proof.
  unfold receive_messages.
  destruct (_process t) as [p|]; [|contradiction].
  destruct (_stdout_stream t) as [out|]; [|contradiction].
  destruct (feed_all acc0 (chunks out)) as [msgs [st|e unread]] eqn:E;
    cbn [yielded]; intros H; exists out; rewrite E;
    (split; [reflexivity | exact H]).
Qed.

(** Every message yielded by [receive_messages] is the parse of one
    syntactically valid JSON text: the stripped, non-blank lines of a run of
    consecutive lines of the message stream, joined by newlines. *)
Lemma yielded_is_parsed_buffer (t : transport) (code : Z) (v : json) :
  In v (yielded (receive_messages t code)) ->
  exists out pre frag post,
    _stdout_stream t = Some out /\
    chunks out = pre ++ frag ++ post /\
    json_loads (join_lines (filter nonempty (map strip frag))) = Some v.
Proof.
  intros Hin.
  destruct (yielded_receive _ _ _ Hin) as (out & Hout & Hin').
  destruct (yielded_origin _ _ _ Hin')
    as (pre & frag & post & b & Hl & Hb & Hj).
  exists out, pre, frag, post. repeat split; auto.
  rewrite <- pending_join.
  destruct Hb as [->|[-> _]]; exact Hj.
Qed.

(** C6, where the code departs from it.  A line that holds only the number
    123 is balanced and parses, so it is yielded as a message although its
    top level is a scalar: the check for an opening brace or bracket is made
    only after a parse failure, never before a value is yielded. *)
Theorem scalar_message_yielded :
  yielded (receive_messages (connected [lit "123"]) 0) = [JInt 123] /\
  is_container (JInt 123) = false.
Proof. split; vm_compute; reflexivity. Qed.

(* ================================================================== *)
(** * C9: blank lines, stripping and joining *)




(* ================================================================== *)
(** * C4: exit status against the diagnostic text *)

Lemma startswith_spec p : forall s,
  startswith s p = true <-> exists r, s = p ++ r.
Proof.
  induction p as [|a p IH]; intros s.
  - rewrite startswith_nil. split; [exists s; reflexivity | reflexivity].
  - destruct s as [|c s]; simpl.
    + split; [discriminate | intros [r H]; discriminate].
    + rewrite andb_true_iff, N.eqb_eq, IH. split.
      * intros [-> [r ->]]. exists r. reflexivity.
      * intros [r H]. inversion H; subst. split; [reflexivity | eauto].
Qed.

Lemma contains_unfold needle hay :
  contains needle hay
  = startswith hay needle
    || match hay with
       | [] => false
       | _ :: rest => contains needle rest
       end.
Proof. destruct hay; reflexivity. Qed.

Lemma contains_spec needle : forall hay,
  contains needle hay = true <-> exists pre post, hay = pre ++ needle ++ post.
Proof.
  induction hay as [|c hay IH]; rewrite contains_unfold, orb_true_iff,
    startswith_spec.
  - split.
    + intros [[r H]|H]; [|discriminate]. exists [], r. exact H.
    + intros (pre & post & H). left.
      destruct pre; [exists post; exact H|discriminate].
  - rewrite IH. split.
    + intros [[r H]|(pre & post & H)].
      * exists [], r. exact H.
      * exists (c :: pre), post. rewrite H. reflexivity.
    + intros (pre & post & H). destruct pre as [|a pre].
      * left. exists post. exact H.
      * right. inversion H; subst. eauto.
Qed.

Lemma lower_char_letter c d :
  (97 <= d <= 122)%N -> lower_char c = d <-> same_letter c d.
Proof.
  intros Hd. unfold lower_char, same_letter.
  destruct ((65 <=? c) && (c <=? 90))%N eqn:E; chars_to_prop; lia.
Qed.

Lemma lower_spells word : forall mid,
  Forall (fun d => (97 <= d <= 122)%N) word ->
  lower mid = word <-> Forall2 same_letter mid word.
Proof.
  induction word as [|d word IH]; intros mid Hw.
  - destruct mid; simpl; split; intros H; try constructor;
      try discriminate; inversion H.
  - inversion Hw as [|? ? Hd Hw']; subst.
    destruct mid as [|c mid]; simpl.
    + split; intros H; [discriminate | inversion H].
    + split; intros H.
      * inversion H; subst. constructor.
        -- apply lower_char_letter; [exact Hd | reflexivity].
        -- apply IH; [exact Hw' | reflexivity].
      * inversion H; subst. f_equal.
        -- apply lower_char_letter; assumption.
        -- apply IH; assumption.
Qed.

(** The test of the code and the wording of the specification agree. *)
Lemma contains_error_spec text :
  contains (lit "error") (lower text) = true <-> mentions_error text.
Proof.
  assert (Hw : Forall (fun d => (97 <= d <= 122)%N) (lit "error"))
    by (repeat constructor; cbv; discriminate).
  rewrite contains_spec. unfold mentions_error. split.
  - intros (pre & post & H). unfold lower in H.
    apply map_eq_app in H. destruct H as (pre' & rest & -> & Hpre & H).
    apply map_eq_app in H. destruct H as (mid & post' & -> & Hmid & Hpost).
    exists pre', mid, post'. split; [reflexivity|].
    apply lower_spells; assumption.
  - intros (pre & mid & post & -> & Hmid).
    apply lower_spells in Hmid; [|exact Hw].
    exists (lower pre), (lower post). unfold lower in *.
    rewrite !map_app, Hmid. reflexivity.
Qed.

Lemma reconcile_cases p stderr_lines code :
  returncode p = Some code ->
  (code <> 0 /\ mentions_error (join_lines stderr_lines) /\
   reconcile p stderr_lines
   = Some (ProcessError (lit "CLI process failed") code
                        (join_lines stderr_lines))) \/
  (~ (code <> 0 /\ mentions_error (join_lines stderr_lines)) /\
   reconcile p stderr_lines = None).
Proof.
  intros Hp. unfold reconcile. rewrite Hp.
  destruct (code =? 0) eqn:Hc; cbn [negb].
  - right. apply Z.eqb_eq in Hc. split; [tauto | reflexivity].
  - apply Z.eqb_neq in Hc.
    destruct (contains (lit "error") (lower (join_lines stderr_lines))) eqn:He.
    + pose proof He as He'. apply contains_error_spec in He'.
      destruct (join_lines stderr_lines) as [|c r] eqn:Hj.
      * vm_compute in He. discriminate.
      * left. cbn [nonempty andb]. auto.
    + right. split.
      * intros [_ Hm]. apply contains_error_spec in Hm. congruence.
      * rewrite andb_false_r. reflexivity.
Qed.

(** C4.  When the message stream ends without a framing error and the child
    has exited with [code], the messages yielded are kept, and
    [receive_messages] raises the process failure, carrying [code] and the
    collected diagnostic text, exactly when [code] is not zero and the text
    contains [error] in any letter case; in every other case it ends without
    raising. *)
Theorem process_failure_iff (t : transport) (p : process) (out : text_stream)
    (exit_code code : Z) (msgs : list json) (st : acc_state) :
  _process t = Some p ->
  _stdout_stream t = Some out ->
  feed_all acc0 (chunks out) = (msgs, Exhausted st) ->
  returncode (wait p exit_code) = Some code ->
  let text := join_lines (read_stderr t) in
  let r := receive_messages t exit_code in
  yielded r = msgs /\
  (raised r = Some (ProcessError (lit "CLI process failed") code text)
   <-> code <> 0 /\ mentions_error text) /\
  (raised r = None <-> ~ (code <> 0 /\ mentions_error text)).
Proof.
  intros Hp Hout Hfeed Hcode text r.
  unfold r, receive_messages. rewrite Hp, Hout, Hfeed.
  cbn [yielded raised]. split; [reflexivity|].
  destruct (reconcile_cases _ (read_stderr t) _ Hcode)
    as [(Hc & Hm & ->)|(Hn & ->)]; fold text.
  - split; split; try tauto; try discriminate.
  - split; split; try tauto; discriminate.
Qed.

Lemma process_failure_iff_witness :
  let r := receive_messages failing_child 1 in
  yielded r = [ok_value] /\
  (raised r = Some (ProcessError (lit "CLI process failed") 1
                                 (join_lines (read_stderr failing_child)))
   <-> 1 <> 0 /\ mentions_error (join_lines (read_stderr failing_child))) /\
  (raised r = None
   <-> ~ (1 <> 0 /\ mentions_error (join_lines (read_stderr failing_child)))).
Proof.
  apply (process_failure_iff failing_child (mk_process None)
           (mk_stream [jlit "{'ok':true}"] EndOfStream) 1 1 [ok_value] acc0).
  - reflexivity.
  - reflexivity.
  - vm_compute. reflexivity.
  - reflexivity.
Defined.

(** The two scenarios of the specification. *)
Example exit_one_with_error_text :
  receive_messages failing_child 1
  = mk_received
      (mk_transport (Some (mk_process (Some 1)))
                    (Some (mk_stream [] EndOfStream))
                    (Some (mk_stream [] EndOfStream)))
      [ok_value]
      (Some (ProcessError (lit "CLI process failed") 1 (lit "Error: bad flag"))).
Proof. vm_compute. reflexivity. Qed.

Example exit_one_without_text :
  receive_messages silent_child 1
  = mk_received
      (mk_transport (Some (mk_process (Some 1)))
                    (Some (mk_stream [] EndOfStream))
                    (Some (mk_stream [] EndOfStream)))
      [ok_value] None.
Proof. vm_compute. reflexivity. Qed.

(* ================================================================== *)
(** * C7, C8, C10: the lifecycle *)

(** Streams are held only together with a process. *)
Lemma reachable_streams t :
  reachable t ->
  _process t = None -> _stdout_stream t = None /\ _stderr_stream t = None.
Proof.
  induction 1 as [|t spawn Hr IH|t child Hr IH|t m o Hr IH|t code Hr IH].
  - auto.
  - unfold connect. destruct (_process t) eqn:Hp; [cbn; congruence|].
    destruct spawn; cbn; auto; discriminate.
  - unfold disconnect. destruct (_process t) eqn:Hp; cbn; auto.
  - exact IH.
  - unfold receive_messages.
    destruct (_process t) eqn:Hp; [|cbn; auto].
    destruct (_stdout_stream t) as [out|] eqn:Ho; [|cbn; intros; congruence].
    destruct (feed_all acc0 (chunks out)) as [msgs [st|e unread]]; cbn;
      discriminate.
Qed.

Lemma disconnect_releases_process t child :
  _process (fst (disconnect t child)) = None.
Proof.
  unfold disconnect. destruct (_process t) eqn:Hp; cbn; auto.
Qed.

(** C7.  [disconnect] without a process does nothing and changes nothing;
    on a child that has already exited it makes no call on the process.  On
    a live child it sends the termination request and waits under the
    timeout; when the wait times out it kills and waits again, so that the
    last call is a wait that returned; when the termination request finds no
    process, nothing more is called and nothing is raised.  Whenever there was a process, process and streams are
    released; on every transport the class can reach all three references are
    released after [disconnect], and a second [disconnect] does nothing. *)
Theorem disconnect_idempotent_and_tolerant :
  (forall t child, _process t = None -> disconnect t child = (t, [])) /\
  (forall t p code child,
     _process t = Some p -> returncode p = Some code ->
     disconnect t child = (new_transport, [])) /\
  (forall t p child,
     _process t = Some p -> returncode p = None ->
     disconnect t child = (new_transport, stop_actions child)) /\
  (forall child,
     on_terminate child = TerminateSent ->
     exists front final,
       stop_actions child = Terminate :: front ++ [final] /\
       (final = Wait \/ (final = WaitTimed /\ exits_in_time child = true))) /\
  (forall t child,
     reachable t -> fst (disconnect t child) = new_transport) /\
  (forall t child again,
     disconnect (fst (disconnect t child)) again
     = (fst (disconnect t child), [])).
Proof.
  split; [|split; [|split; [|split; [|split]]]].
  - intros t child Hp. unfold disconnect. rewrite Hp. reflexivity.
  - intros t p code child Hp Hc. unfold disconnect. rewrite Hp, Hc.
    reflexivity.
  - intros t p child Hp Hc. unfold disconnect, stop_actions. rewrite Hp, Hc.
    destruct (on_terminate child), (exits_in_time child); reflexivity.
  - intros child Ht. unfold stop_actions. rewrite Ht.
    destruct (exits_in_time child).
    + exists [], WaitTimed. split; [reflexivity|]. right. split; reflexivity.
    + exists [WaitTimed; Kill], Wait. split; [reflexivity|]. left. reflexivity.
  - intros t child Hr. unfold disconnect.
    destruct (_process t) eqn:Hp; [reflexivity|].
    destruct (reachable_streams t Hr Hp) as [Ho He].
    destruct t as [pr so se]; cbn in *. subst. reflexivity.
  - intros t child again.
    pose proof (disconnect_releases_process t child) as Hp.
    unfold disconnect at 1. rewrite Hp. reflexivity.
Qed.


Lemma disconnect_idempotent_and_tolerant_witness :
  disconnect new_transport (mk_child TerminateSent false)
  = (new_transport, []) /\
  disconnect (mk_transport (Some (mk_process (Some 0))) None None)
             (mk_child TerminateSent false)
  = (new_transport, []) /\
  disconnect (connected []) (mk_child TerminateSent false)
  = (new_transport, [Terminate; WaitTimed; Kill; Wait]) /\
  disconnect (connected []) (mk_child TerminateSent true)
  = (new_transport, [Terminate; WaitTimed]) /\
  disconnect (connected []) (mk_child TerminateLookupError false)
  = (new_transport, [Terminate]) /\
  fst (disconnect (fst (connect new_transport SpawnFileNotFound))
                  (mk_child TerminateSent false))
  = new_transport.
Proof.
  destruct disconnect_idempotent_and_tolerant as (H1 & H2 & H3 & _ & H5 & _).
  split; [|split; [|split; [|split; [|split]]]].
  - apply H1. reflexivity.
  - apply (H2 _ (mk_process (Some 0)) 0); reflexivity.
  - apply (H3 _ (mk_process None)); reflexivity.
  - apply (H3 _ (mk_process None)); reflexivity.
  - apply (H3 _ (mk_process None)); reflexivity.
  - apply H5. apply reach_connect, reach_new.
Defined.

(** C8.  Without a process or without a message stream, [receive_messages]
    raises the connection error at once, yields nothing and leaves the
    transport as it is.  That is the case on a new transport, after a
    [connect] that failed on a new transport, and after any [disconnect]. *)
Theorem receive_requires_connection :
  (forall t exit_code,
     _process t = None \/ _stdout_stream t = None ->
     receive_messages t exit_code = mk_received t [] (Some not_connected)) /\
  (forall exit_code,
     receive_messages new_transport exit_code
     = mk_received new_transport [] (Some not_connected)) /\
  (forall spawn t e exit_code,
     connect new_transport spawn = (t, Some e) ->
     receive_messages t exit_code = mk_received t [] (Some not_connected)) /\
  (forall t child exit_code,
     receive_messages (fst (disconnect t child)) exit_code
     = mk_received (fst (disconnect t child)) [] (Some not_connected)).
Proof.
  assert (H : forall t exit_code,
     _process t = None \/ _stdout_stream t = None ->
     receive_messages t exit_code = mk_received t [] (Some not_connected)).
  { intros t code [Hp|Ho]; unfold receive_messages.
    - rewrite Hp. reflexivity.
    - rewrite Ho. destruct (_process t); reflexivity. }
  split; [exact H|]. split; [|split].
  - intros code. apply H. left. reflexivity.
  - intros spawn t e code Hc. apply H. left.
    destruct spawn; cbn in Hc; inversion Hc; reflexivity.
  - intros t child code. apply H. left. apply disconnect_releases_process.
Qed.


Lemma receive_requires_connection_witness :
  receive_messages (mk_transport (Some (mk_process None)) None None) 0
  = mk_received (mk_transport (Some (mk_process None)) None None) []
                (Some not_connected) /\
  receive_messages new_transport 0
  = mk_received new_transport [] (Some not_connected).
Proof.
  destruct receive_requires_connection as (H1 & _ & H3 & _).
  split.
  - apply H1. right. reflexivity.
  - apply (H3 SpawnFileNotFound new_transport CLINotFoundError). reflexivity.
Defined.

(** C10.  [send_request] returns nothing, raises nothing and leaves the
    transport (process, streams, connection status) as it is, whatever the
    messages and options. *)
Theorem send_request_is_noop (t : transport) (messages : list json)
    (options : list (str * json)) :
  send_request t messages options = (t, None) /\
  is_connected (fst (send_request t messages options)) = is_connected t.
Proof. split; reflexivity. Qed.

(* ================================================================== *)
(** * C5: the size guard *)

Lemma lstrip_id s :
  Forall (fun c => isspace c = false) s -> lstrip s = s.
Proof.
  intros H. destruct H as [|c s Hc _]; [reflexivity|].
  simpl. rewrite Hc. reflexivity.
Qed.

Lemma strip_id s :
  Forall (fun c => isspace c = false) s -> strip s = s.
Proof.
  intros H. unfold strip, rstrip.
  rewrite (lstrip_id s H), (lstrip_id (rev s)) by (apply Forall_rev, H).
  apply rev_involutive.
Qed.

Lemma scan_line_digits s n :
  in_string s = false -> scan_line s (repeat 49%N n) = s.
Proof.
  intros Hs. induction n as [|n IH]; [reflexivity|].
  cbn [repeat]. unfold scan_line in *. cbn [fold_left].
  rewrite scan_char_outside by (try exact Hs; discriminate). exact IH.
Qed.

Lemma digits_not_space n :
  Forall (fun c => isspace c = false) (repeat 49%N n).
Proof.
  apply Forall_forall. intros c Hc. apply repeat_spec in Hc. subst.
  reflexivity.
Qed.


(** While the buffer with the new line stays below the ceiling, nothing is
    raised. *)
Lemma below_ceiling_no_failure st l e :
  len (append_line (json_buffer st) (strip l)) < MAX_BUFFER_SIZE ->
  feed st l <> Raise e.
Proof.
  intros Hlen. unfold feed.
  destruct (nonempty (strip l)); [|discriminate].
  pose proof (len_append_line (json_buffer st) (strip l)).
  replace (len (json_buffer st) + len (strip l) >? MAX_BUFFER_SIZE)
    with false by (symmetry; rewrite Z.gtb_ltb; apply Z.ltb_ge; lia).
  unfold complete_check.
  apply Z.ltb_lt in Hlen. rewrite Hlen.
  destruct (nonempty _ && balanced _); [|discriminate].
  destruct (json_loads _); [discriminate|].
  destruct (looks_like_json _); discriminate.
Qed.

Lemma strip_bracket_and_digits n :
  strip (bracket_and_digits n) = bracket_and_digits n.
Proof.
  apply strip_id. constructor; [reflexivity | apply digits_not_space].
Qed.

Lemma len_bracket_and_digits n :
  len (bracket_and_digits n) = 1 + Z.of_nat n.
Proof.
  unfold bracket_and_digits. rewrite len_cons. unfold len.
  rewrite repeat_length. reflexivity.
Qed.

Lemma scan_bracket_and_digits n :
  scan_line scan0 (bracket_and_digits n) = mk_scan 0 1 false false.
Proof.
  unfold bracket_and_digits, scan_line. cbn [fold_left].
  change (scan_char scan0 LBRACKET) with (mk_scan 0 1 false false).
  apply (scan_line_digits (mk_scan 0 1 false false) n). reflexivity.
Qed.

Lemma unbalanced_kept b s :
  balanced s = false -> complete_check b s = Continue (mk_acc b s).
Proof.
  intros H. unfold complete_check. rewrite H, andb_false_r. reflexivity.
Qed.

Lemma ceiling_passed_by_one n :
  Z.of_nat n = MAX_BUFFER_SIZE - 2 ->
  feed_all acc0 [bracket_and_digits n; [49%N]]
  = ([], Exhausted (mk_acc (bracket_and_digits n ++ [NEWLINE; 49%N])
                           (mk_scan 0 1 false false))) /\
  len (bracket_and_digits n ++ [NEWLINE; 49%N]) = MAX_BUFFER_SIZE + 1.
Proof.
  intros Hn.
  assert (H1 : feed acc0 (bracket_and_digits n)
               = Continue (mk_acc (bracket_and_digits n)
                                  (mk_scan 0 1 false false))).
  { unfold feed. rewrite strip_bracket_and_digits.
    cbn [acc0 json_buffer scan append_line].
    change (nonempty (bracket_and_digits n)) with true. cbv iota.
    replace (len [] + len (bracket_and_digits n) >? MAX_BUFFER_SIZE)
      with false.
    - rewrite scan_bracket_and_digits. apply unbalanced_kept. reflexivity.
    - symmetry. rewrite Z.gtb_ltb. apply Z.ltb_ge.
      rewrite len_bracket_and_digits. change (len []) with 0. lia. }
  assert (H2 : feed (mk_acc (bracket_and_digits n) (mk_scan 0 1 false false))
                    [49%N]
               = Continue (mk_acc (bracket_and_digits n ++ [NEWLINE; 49%N])
                                  (mk_scan 0 1 false false))).
  { unfold feed. change (strip [49%N]) with [49%N].
    cbn [nonempty json_buffer scan].
    replace (len (bracket_and_digits n) + len [49%N] >? MAX_BUFFER_SIZE)
      with false.
    - change (append_line (bracket_and_digits n) [49%N])
        with (bracket_and_digits n ++ [NEWLINE; 49%N]).
      apply unbalanced_kept. reflexivity.
    - symmetry. rewrite Z.gtb_ltb. apply Z.ltb_ge.
      rewrite len_bracket_and_digits. change (len [49%N]) with 1. lia. }
  split.
  - cbn [feed_all]. rewrite H1, H2. reflexivity.
  - rewrite len_app, len_bracket_and_digits.
    change (len [NEWLINE; 49%N]) with 2. lia.
Qed.

Lemma receive_exhausted_clean lines msgs st :
  feed_all acc0 lines = (msgs, Exhausted st) ->
  raised (receive_messages (connected lines) 0) = None.
Proof.
  intros H. unfold receive_messages, connected.
  cbn [_process _stdout_stream chunks]. rewrite H. reflexivity.
Qed.

(** C5, where the code departs from it.  After [long_line] the line [1] makes
    the buffer 50 MiB + 1 characters long, one above the ceiling: the guard
    adds the two sizes without the joining newline, finds exactly the ceiling
    and lets the line through.  The buffer is kept, nothing is raised, and
    when the stream ends there [receive_messages] ends without any failure. *)
Theorem buffer_above_ceiling_accepted :
  feed_all acc0 [long_line; lit "1"]
  = ([], Exhausted (mk_acc (long_line ++ NEWLINE :: lit "1")
                           (mk_scan 0 1 false false))) /\
  len (long_line ++ NEWLINE :: lit "1") = MAX_BUFFER_SIZE + 1 /\
  raised (receive_messages (connected [long_line; lit "1"]) 0) = None.
Proof.
  assert (Hn : Z.of_nat (Z.to_nat (MAX_BUFFER_SIZE - 2)) = MAX_BUFFER_SIZE - 2).
  { apply Z2Nat.id. unfold MAX_BUFFER_SIZE. lia. }
  destruct (ceiling_passed_by_one _ Hn) as [Hfeed Hlen].
  fold long_line in Hfeed, Hlen.
  split; [exact Hfeed|]. split; [exact Hlen|].
  exact (receive_exhausted_clean _ _ _ Hfeed).
Qed.

(* ================================================================== *)
(** * Further properties of the reading loop *)



Lemma feed_all_raised_inv (st : acc_state) (lines : list str)
    (out : list json) (e : sdk_error) (unread : list str) :
  feed_all st lines = (out, Raised e unread) ->
  exists before line mid,
    lines = before ++ line :: unread /\
    feed_all st before = (out, Exhausted mid) /\
    feed mid line = Raise e.
Proof.
  revert st out; induction lines as [|l lines IH]; intros st out H;
    cbn [feed_all] in H; [discriminate|].
  destruct (feed st l) as [st'|d st'|e'] eqn:Hf.
  - destruct (IH _ _ H) as (before & line & mid & -> & Hb & Hl).
    exists (l :: before), line, mid. repeat split; auto.
    cbn [feed_all]. rewrite Hf. exact Hb.
  - destruct (feed_all st' lines) as [out' e''] eqn:Hrest.
    inversion H; subst.
    destruct (IH _ _ Hrest) as (before & line & mid & -> & Hb & Hl).
    exists (l :: before), line, mid. repeat split; auto.
    cbn [feed_all]. rewrite Hf, Hb. reflexivity.
  - inversion H; subst. exists [], l, st. repeat split; auto.
Qed.



(* ------------------------------------------------------------------ *)
(** ** What the accumulator keeps true *)

Lemma len_append_line_upper b line_str :
  len (append_line b line_str) <= len b + len line_str + 1.
Proof.
  destruct b as [|c b]; cbn [append_line].
  - change (len []) with 0. lia.
  - rewrite len_app, !len_cons. lia.
Qed.

Lemma append_line_not_nil b line_str :
  line_str <> [] -> append_line b line_str <> [].
Proof.
  intros H. destruct b; cbn [append_line]; [exact H | discriminate].
Qed.

Lemma scan_char_escape s c :
  (escape_next s = true -> in_string s = true) ->
  escape_next (scan_char s c) = true -> in_string (scan_char s c) = true.
Proof.
  intros H. unfold scan_char.
  destruct (in_string s) eqn:Hs.
  - destruct (escape_next s); [discriminate|].
    destruct (c =? BACKSLASH)%N; [reflexivity|].
    destruct (c =? DQUOTE)%N; cbn; [discriminate | rewrite Hs; reflexivity].
  - destruct (escape_next s) eqn:He; [specialize (H eq_refl); discriminate|].
    destruct (c =? DQUOTE)%N; [reflexivity|].
    destruct (c =? LBRACE)%N; [cbn; congruence|].
    destruct (c =? RBRACE)%N; [cbn; congruence|].
    destruct (c =? LBRACKET)%N; [cbn; congruence|].
    destruct (c =? RBRACKET)%N; [cbn; congruence | congruence].
Qed.

Lemma scan_line_escape text : forall s,
  (escape_next s = true -> in_string s = true) ->
  escape_next (scan_line s text) = true -> in_string (scan_line s text) = true.
Proof.
  induction text as [|c text IH]; intros s H; [exact H|].
  unfold scan_line in *. cbn [fold_left]. apply IH.
  apply scan_char_escape, H.
Qed.

Lemma acc0_ok : acc_ok acc0.
Proof.
  unfold acc_ok, acc0. cbn [json_buffer scan]. split; [|split].
  - change (len []) with 0. unfold MAX_BUFFER_SIZE. lia.
  - discriminate.
  - reflexivity.
Qed.

Lemma feed_keeps_ok st l st' :
  acc_ok st ->
  feed st l = Continue st' \/ (exists d, feed st l = Yield d st') ->
  acc_ok st'.
Proof.
  intros Hok H. unfold feed in H.
  destruct (nonempty (strip l)) eqn:Hne.
  2:{ destruct H as [H|[d H]]; [inversion H; subst; exact Hok | discriminate]. }
  destruct (len (json_buffer st) + len (strip l) >? MAX_BUFFER_SIZE) eqn:Hg.
  { destruct H as [H|[d H]]; discriminate. }
  rewrite Z.gtb_ltb in Hg. apply Z.ltb_ge in Hg.
  assert (Hkept : acc_ok (mk_acc (append_line (json_buffer st) (strip l))
                                 (scan_line (scan st) (strip l)))).
  { destruct Hok as (_ & Hesc & _). unfold acc_ok; cbn [json_buffer scan].
    split; [|split].
    - pose proof (len_append_line_upper (json_buffer st) (strip l)). lia.
    - apply scan_line_escape, Hesc.
    - intros Hnil. apply nonempty_true in Hne.
      exfalso. exact (append_line_not_nil _ _ Hne Hnil). }
  unfold complete_check in H.
  destruct (nonempty _ && balanced _).
  - destruct (json_loads _).
    + destruct H as [H|[d H]]; inversion H; subst; exact acc0_ok.
    + destruct (looks_like_json _).
      * destruct (len _ <? MAX_BUFFER_SIZE);
          destruct H as [H|[d H]]; inversion H; subst; exact Hkept.
      * destruct H as [H|[d H]]; inversion H; subst; exact acc0_ok.
  - destruct H as [H|[d H]]; inversion H; subst; exact Hkept.
Qed.

(** Whatever the lines, the accumulator stays within these bounds: its buffer
    is never more than one character above the 50 MiB ceiling, [escape_next]
    is set only while [in_string] is, and an empty buffer goes with the
    initial counters and flags. *)
Theorem accumulator_invariant (st : acc_state) (lines : list str)
    (out : list json) (st' : acc_state) :
  acc_ok st ->
  feed_all st lines = (out, Exhausted st') ->
  acc_ok st'.
Proof.
  revert st out; induction lines as [|l lines IH]; intros st out Hok H;
    cbn [feed_all] in H.
  - inversion H; subst; exact Hok.
  - destruct (feed st l) as [st1|d st1|e] eqn:Hf.
    + eapply IH; [|exact H]. eapply feed_keeps_ok; eauto.
    + destruct (feed_all st1 lines) as [out' e'] eqn:Hrest.
      inversion H; subst.
      eapply IH; [|exact Hrest]. eapply feed_keeps_ok; eauto.
    + discriminate.
Qed.

Lemma accumulator_invariant_witness :
  acc_ok (mk_acc (jlit "{'a':'x\" ++ NEWLINE :: lit "y")
                 (mk_scan 1 0 true false)).
Proof.
  apply (accumulator_invariant acc0 [jlit "{'ok':true}"; jlit "{'a':'x\"; lit " y "]
           [ok_value]).
  - exact acc0_ok.
  - vm_compute. reflexivity.
Defined.

(* ------------------------------------------------------------------ *)
(** ** Whole documents *)

Lemma scan_char_shift a b s c :
  scan_char (shift a b s) c = shift a b (scan_char s c).
Proof.
  destruct s as [bc kc i e].
  unfold scan_char, shift; cbn [in_string escape_next brace_count bracket_count].
  destruct i, e, (c =? BACKSLASH)%N, (c =? DQUOTE)%N,
    (c =? LBRACE)%N, (c =? RBRACE)%N, (c =? LBRACKET)%N, (c =? RBRACKET)%N;
    cbn [in_string escape_next brace_count bracket_count];
    try reflexivity; f_equal; lia.
Qed.

Lemma scan_line_shift a b text : forall s,
  scan_line (shift a b s) text = shift a b (scan_line s text).
Proof.
  induction text as [|c text IH]; intros s; [reflexivity|].
  unfold scan_line in *. cbn [fold_left].
  rewrite scan_char_shift. apply IH.
Qed.

Lemma finish_shadow ps v : Json.finish ps = Some v -> shadow ps = scan0.
Proof.
  destruct ps as [stk m]; unfold Json.finish; cbn [Json.stack Json.pmode].
  intros H. destruct m; try discriminate; destruct stk; try discriminate;
    reflexivity.
Qed.

(** Outside a string, the scan of a whole document leaves every counter and
    flag as it was. *)
Lemma document_scan_neutral text v s :
  json_loads text = Some v ->
  in_string s = false -> escape_next s = false ->
  scan_line s text = s.
Proof.
  intros Hj Hs He.
  destruct (json_loads_inv _ _ Hj) as (ps & Hr & Hf).
  apply run_shadow in Hr. rewrite (finish_shadow _ _ Hf) in Hr.
  change (shadow Json.init) with scan0 in Hr.
  assert (Hshift : s = shift (brace_count s) (bracket_count s) scan0).
  { destruct s as [bc kc i e]; cbn in *. subst. reflexivity. }
  rewrite Hshift at 1. rewrite scan_line_shift, Hr, <- Hshift. reflexivity.
Qed.

Lemma json_loads_nil : json_loads [] = None.
Proof. reflexivity. Qed.

(** Once a counter is off zero outside a string (after a stray closing brace,
    or a log line with an opening bracket), lines that are each a complete
    JSON document never bring it back: none of them is yielded. *)
Theorem unbalanced_state_yields_no_document (st : acc_state)
    (docs : list str) :
  in_string (scan st) = false ->
  escape_next (scan st) = false ->
  balanced (scan st) = false ->
  Forall (fun l => exists v, json_loads (strip l) = Some v) docs ->
  fst (feed_all st docs) = [].
Proof.
  revert st; induction docs as [|l docs IH]; intros st Hs He Hb Hall;
    [reflexivity|].
  inversion Hall as [|? ? [v Hv] Hall']; subst.
  cbn [feed_all]. unfold feed.
  destruct (nonempty (strip l)); [|apply IH; assumption].
  destruct (len (json_buffer st) + len (strip l) >? MAX_BUFFER_SIZE);
    [reflexivity|].
  rewrite (document_scan_neutral _ _ _ Hv Hs He).
  rewrite unbalanced_kept by exact Hb.
  apply IH; assumption.
Qed.

Lemma unbalanced_state_yields_no_document_witness :
  feed_all acc0 [lit "}"]
  = ([], Exhausted (mk_acc (lit "}") (mk_scan (-1) 0 false false))) /\
  fst (feed_all (mk_acc (lit "}") (mk_scan (-1) 0 false false))
                [jlit "{'ok':true}"; jlit "[1,2]"]) = [].
Proof.
  split; [vm_compute; reflexivity|].
  apply (unbalanced_state_yields_no_document
           (mk_acc (lit "}") (mk_scan (-1) 0 false false))
           [jlit "{'ok':true}"; jlit "[1,2]"]).
  - reflexivity.
  - reflexivity.
  - reflexivity.
  - repeat constructor.
    + exists ok_value. vm_compute. reflexivity.
    + exists (JArray [JInt 1; JInt 2]). vm_compute. reflexivity.
Defined.




(* ------------------------------------------------------------------ *)
(** ** White space around and between lines *)

Lemma lstrip_fixed s :
  match s with
  | [] => True
  | c :: _ => isspace c = false
  end -> lstrip s = s.
Proof.
  destruct s as [|c s]; [reflexivity|].
  intros H. cbn [lstrip]. rewrite H. reflexivity.
Qed.

Lemma lstrip_idempotent s : lstrip (lstrip s) = lstrip s.
Proof.
  apply lstrip_fixed. destruct (lstrip s) as [|c r] eqn:H; [exact I|].
  exact (lstrip_head _ _ _ H).
Qed.

(** Stripping twice is stripping once. *)
Lemma strip_idempotent s : strip (strip s) = strip s.
Proof.
  assert (Hl : lstrip (strip s) = strip s).
  { apply lstrip_fixed. destruct (strip s) as [|c r] eqn:H; [exact I|].
    exact (strip_head _ _ _ H). }
  unfold strip at 1. rewrite Hl. unfold rstrip, strip, rstrip.
  rewrite rev_involutive, lstrip_idempotent. reflexivity.
Qed.

Lemma feed_strip st l : feed st (strip l) = feed st l.
Proof. unfold feed. rewrite strip_idempotent. reflexivity. Qed.

Lemma seen_continue st l st' rest :
  feed st l = Continue st' ->
  seen (feed_all st (l :: rest)) = seen (feed_all st' rest).
Proof. intros H. cbn [feed_all]. rewrite H. reflexivity. Qed.

(** Blank lines and the white space around a line are invisible: the loop
    yields the same messages and ends in the same state, or with the same
    exception, on the stripped non-blank lines alone. *)
Theorem blank_lines_and_padding_invisible (st : acc_state)
    (lines : list str) :
  seen (feed_all st lines)
  = seen (feed_all st (filter nonblank (map strip lines))).
Proof.
  revert st; induction lines as [|l lines IH]; intros st; [reflexivity|].
  cbn [map filter]. unfold nonblank at 1. rewrite strip_idempotent.
  destruct (nonempty (strip l)) eqn:Hne.
  - cbn [feed_all]. rewrite feed_strip.
    destruct (feed st l) as [st'|d st'|e].
    + apply IH.
    + specialize (IH st'). unfold seen in *.
      destruct (feed_all st' lines) as [o1 e1],
               (feed_all st' (filter nonblank (map strip lines))) as [o2 e2].
      cbn [fst snd] in *. inversion IH; subst. rewrite H1. reflexivity.
    + reflexivity.
  - assert (Hb : strip l = []) by (destruct (strip l); [reflexivity|discriminate]).
    rewrite (seen_continue st l st lines (feed_blank _ _ Hb)). apply IH.
Qed.

(* ------------------------------------------------------------------ *)
(** ** Text after a complete document *)

Lemma deliver_opened stk v ps :
  Json.deliver stk v = Some ps ->
  opened ps /\ (stk <> [] -> Json.stack ps <> []).
Proof.
  unfold Json.deliver, opened, is_done.
  destruct stk as [|[items|members [k|]] r]; intros H; inversion H; subst;
    cbn [Json.stack Json.pmode]; split; intros; try discriminate; auto.
Qed.

Lemma settled_step_opened ps c ps' :
  opened ps -> Json.settled_step ps c = Some ps' -> opened ps'.
Proof.
  intros Hk H. destruct (Json.stack ps) as [|f r] eqn:Hstk.
  - destruct (settled_step_top _ _ _ (Hk Hstk) Hstk H) as [_ ->]. exact Hk.
  - unfold Json.settled_step in H. rewrite Hstk in H.
    destruct (Json.pmode ps); try discriminate.
    + destruct (Json.is_ws c); [inversion H; subst; exact Hk|].
      destruct f as [items|members [k|]]; try discriminate.
      * destruct (c =? COMMA)%N;
          [inversion H; subst; intros Hnil; discriminate Hnil|].
        destruct (c =? RBRACKET)%N; [|discriminate].
        apply deliver_opened in H. apply H.
      * destruct (c =? COMMA)%N;
          [inversion H; subst; intros Hnil; discriminate Hnil|].
        destruct (c =? RBRACE)%N; [|discriminate].
        apply deliver_opened in H. apply H.
    + destruct (Json.is_ws c); [inversion H; subst; exact Hk | discriminate].
Qed.

Lemma opened_step ps c ps' :
  opened ps -> Json.step ps c = Some ps' -> opened ps'.
Proof.
  intros Hk H. destruct (Json.stack ps) as [|f r] eqn:Hstk.
  - destruct (done_step _ _ _ (Hk Hstk) Hstk H) as [_ ->]. exact Hk.
  - destruct ps as [stk m]; cbn [Json.stack] in Hstk; subst stk.
    unfold Json.step in H; cbn [Json.stack Json.pmode] in H.
    destruct m as [| | | | | |v0|is_key hi chars sm|nm lexeme|l matched];
      try (eapply settled_step_opened; [exact Hk | exact H]).
    7:{ destruct (Json.number_continue nm c).
        - inversion H; subst. intros Hnil; discriminate Hnil.
        - destruct nm; cbn [Json.number_value] in H; try discriminate;
            try (destruct (Json.deliver (f :: r) _) as [ps1|] eqn:Hd;
                 [|discriminate];
                 apply deliver_opened in Hd;
                 eapply settled_step_opened; [apply Hd | exact H]).
          destruct (c =? 73)%N; [|discriminate].
          inversion H; subst. intros Hnil; discriminate Hnil. }
    all: unfold Json.start_value, Json.start_key, Json.string_step,
           Json.literal_step in H.
    all: repeat match type of H with
      | Some _ = Some _ => inversion H; subst; clear H
      | None = Some _ => discriminate H
      | Json.deliver _ _ = Some _ => apply deliver_opened in H; apply H
      | context [if ?b then _ else _] => destruct b eqn:?
      | context [match ?x with _ => _ end] => destruct x eqn:?
      end.
    all: try (intros Hnil; discriminate Hnil).
Qed.

Lemma opened_run s : forall ps ps',
  opened ps -> Json.run ps s = Some ps' -> opened ps'.
Proof.
  induction s as [|c s IH]; intros ps ps' Hk H; simpl in H.
  - inversion H; subst; exact Hk.
  - destruct (Json.step ps c) as [ps1|] eqn:Hs; [|discriminate].
    eapply IH; [eapply opened_step; eauto | exact H].
Qed.

Lemma looks_like_json_head buffer :
  looks_like_json buffer = true ->
  exists c r, buffer = c :: r /\ (c = LBRACE \/ c = LBRACKET).
Proof.
  unfold looks_like_json. destruct buffer as [|c r]; [discriminate|].
  simpl. rewrite !startswith_nil, !andb_true_r. intros H.
  apply orb_true_iff in H. exists c, r. split; [reflexivity|].
  destruct H as [H|H]; apply N.eqb_eq in H; auto.
Qed.

Lemma looks_like_json_app a b :
  looks_like_json a = true -> looks_like_json (a ++ b) = true.
Proof.
  intros H. destruct (looks_like_json_head _ H) as (c & r & -> & Hc).
  unfold looks_like_json. simpl. rewrite !startswith_nil, !andb_true_r.
  destruct Hc as [-> | ->]; reflexivity.
Qed.

(** A document that starts with a brace or a bracket is complete exactly
    where its container closes. *)
Lemma container_done a v :
  looks_like_json a = true -> json_loads a = Some v ->
  exists ps, Json.run Json.init a = Some ps /\ is_done ps /\ Json.stack ps = [].
Proof.
  intros Hl Hj. destruct (json_loads_inv _ _ Hj) as (ps & Hr & Hf).
  exists ps. split; [exact Hr|].
  assert (Hstk : Json.stack ps = []).
  { destruct ps as [stk m]; unfold Json.finish in Hf;
      cbn [Json.stack Json.pmode] in *.
    destruct m; try discriminate; destruct stk; try discriminate; reflexivity. }
  split; [|exact Hstk].
  destruct (looks_like_json_head _ Hl) as (c & r & -> & Hc).
  simpl in Hr. destruct (Json.step Json.init c) as [ps0|] eqn:Hs; [|discriminate].
  assert (Hk : opened ps0).
  { destruct Hc as [-> | ->]; cbv in Hs; inversion Hs; subst;
      intros Hnil; discriminate Hnil. }
  exact (opened_run _ _ _ Hk Hr Hstk).
Qed.

Lemma trailing_text_unparseable a v c rest :
  looks_like_json a = true -> json_loads a = Some v ->
  Json.is_ws c = false ->
  json_loads (a ++ c :: rest) = None.
Proof.
  intros Hl Hj Hc. destruct (container_done _ _ Hl Hj) as (ps & Hr & Hd & Hstk).
  unfold json_loads. destruct (startswith _ _); [reflexivity|].
  rewrite run_app, Hr. simpl.
  destruct (Json.step ps c) as [ps1|] eqn:Hs; [|reflexivity].
  destruct (done_step _ _ _ Hd Hstk Hs) as [Hw _]. congruence.
Qed.

Lemma feed_after_trailing_text st a v c rest l :
  looks_like_json a = true -> json_loads a = Some v ->
  Json.is_ws c = false ->
  json_buffer st = a ++ c :: rest ->
  (exists e, feed st l = Raise e) \/
  (exists st' rest', feed st l = Continue st' /\
                     json_buffer st' = a ++ c :: rest').
Proof.
  intros Hl Hj Hc Hb. unfold feed.
  destruct (nonempty (strip l)); [|right; exists st, rest; auto].
  destruct (_ >? _); [left; eauto|].
  assert (Happ : append_line (json_buffer st) (strip l)
                 = a ++ c :: (rest ++ NEWLINE :: strip l)).
  { rewrite Hb. destruct (looks_like_json_head _ Hl) as (c0 & r & -> & _).
    cbn [app append_line]. rewrite <- app_assoc. reflexivity. }
  rewrite Happ. unfold complete_check.
  destruct (nonempty _ && balanced _).
  - rewrite (trailing_text_unparseable _ _ _ _ Hl Hj Hc).
    rewrite (looks_like_json_app _ _ Hl).
    destruct (_ <? _); [right|left; eauto].
    eexists _, _. split; reflexivity.
  - right. eexists _, _. split; reflexivity.
Qed.

(** Text after a complete document blocks the stream.  When the buffer holds
    an object or an array followed by anything but white space (two documents
    on one line, say), the buffer is kept as a document that might still be
    incomplete; it can never parse again, so no later line yields a message,
    whatever it holds, and the loop ends with the text still in the buffer or
    with an exception. *)
Theorem text_after_document_blocks_stream (st : acc_state) (a rest : str)
    (c : char) (v : json) (lines : list str) :
  looks_like_json a = true ->
  json_loads a = Some v ->
  Json.is_ws c = false ->
  json_buffer st = a ++ c :: rest ->
  fst (feed_all st lines) = [] /\
  match snd (feed_all st lines) with
  | Exhausted st' => exists rest', json_buffer st' = a ++ c :: rest'
  | Raised _ _ => True
  end.
Proof.
  intros Hl Hj Hc. revert st rest.
  induction lines as [|l lines IH]; intros st rest Hb; cbn [feed_all].
  - split; [reflexivity|]. cbn [snd]. eauto.
  - destruct (feed_after_trailing_text st a v c rest l Hl Hj Hc Hb)
      as [[e He]|(st' & rest' & Hf & Hb')].
    + rewrite He. split; [reflexivity | exact I].
    + rewrite Hf. exact (IH st' rest' Hb').
Qed.

Lemma text_after_document_blocks_stream_witness :
  feed acc0 (jlit "{'a':1}{'b':2}")
  = Continue (mk_acc (jlit "{'a':1}{'b':2}") scan0) /\
  fst (feed_all (mk_acc (jlit "{'a':1}{'b':2}") scan0)
                [jlit "{'ok':true}"; jlit "[1,2]"]) = [] /\
  match snd (feed_all (mk_acc (jlit "{'a':1}{'b':2}") scan0)
                      [jlit "{'ok':true}"; jlit "[1,2]"]) with
  | Exhausted st' =>
      exists rest', json_buffer st' = jlit "{'a':1}" ++ LBRACE :: rest'
  | Raised _ _ => True
  end.
Proof.
  split; [vm_compute; reflexivity|].
  apply (text_after_document_blocks_stream
           (mk_acc (jlit "{'a':1}{'b':2}") scan0)
           (jlit "{'a':1}") (jlit "'b':2}") LBRACE
           (JObject [(lit "a", JInt 1)])).
  - reflexivity.
  - vm_compute. reflexivity.
  - reflexivity.
  - reflexivity.
Defined.

(* ------------------------------------------------------------------ *)
(** ** The exceptions of the generator *)

Lemma feed_raise_cases st l e :
  feed st l = Raise e ->
  e = overflow_error \/
  exists buffer,
    e = CLIJSONDecodeError (firstn 1000 buffer ++ lit "...") /\
    MAX_BUFFER_SIZE <= len buffer <= MAX_BUFFER_SIZE + 1 /\
    looks_like_json buffer = true /\ json_loads buffer = None.
Proof.
  unfold feed. destruct (nonempty (strip l)); [|discriminate].
  destruct (_ >? _) eqn:Hg; [intros H; inversion H; auto|].
  rewrite Z.gtb_ltb in Hg. apply Z.ltb_ge in Hg.
  unfold complete_check.
  destruct (nonempty _ && balanced _); [|discriminate].
  destruct (json_loads _) eqn:Hj; [discriminate|].
  destruct (looks_like_json _) eqn:Hl; [|discriminate].
  destruct (_ <? _) eqn:Hlt; [discriminate|].
  apply Z.ltb_ge in Hlt.
  intros H; inversion H; subst. right.
  exists (append_line (json_buffer st) (strip l)).
  pose proof (len_append_line_upper (json_buffer st) (strip l)).
  repeat split; auto; lia.
Qed.

(** The exceptions that [receive_messages] raises itself are these and no
    others: the not-connected error, when the process or the message stream
    is missing; the overflow error; the decode error that carries the first
    thousand characters of a buffer that starts like JSON, does not parse and
    is exactly at the ceiling or one character above it; and the process
    error, with an exit status other than zero and a diagnostic text that
    mentions an error. *)
Theorem receive_raises_only (t : transport) (exit_code : Z) (e : sdk_error) :
  raised (receive_messages t exit_code) = Some e ->
  (e = not_connected /\ (_process t = None \/ _stdout_stream t = None)) \/
  e = overflow_error \/
  (exists buffer,
     e = CLIJSONDecodeError (firstn 1000 buffer ++ lit "...") /\
     MAX_BUFFER_SIZE <= len buffer <= MAX_BUFFER_SIZE + 1 /\
     looks_like_json buffer = true /\ json_loads buffer = None) \/
  (exists code text,
     e = ProcessError (lit "CLI process failed") code text /\
     code <> 0 /\ contains (lit "error") (lower text) = true).
Proof.
  unfold receive_messages.
  destruct (_process t) as [p|] eqn:Hp.
  2:{ cbn [raised]. intros H; inversion H. left. split; [reflexivity | auto]. }
  destruct (_stdout_stream t) as [out|] eqn:Ho.
  2:{ cbn [raised]. intros H; inversion H. left. split; [reflexivity | auto]. }
  destruct (feed_all acc0 (chunks out)) as [msgs [st|e' unread]] eqn:Hfeed;
    cbn [raised]; intros H.
  - right; right; right. unfold reconcile in H.
    destruct (returncode (wait p exit_code)) as [code|]; [|discriminate].
    destruct (negb (code =? 0)) eqn:Hc; [|discriminate].
    destruct (nonempty _ && contains _ _) eqn:Hm; [|discriminate].
    inversion H; subst. apply andb_true_iff in Hm. destruct Hm as [_ Hm].
    apply negb_true_iff, Z.eqb_neq in Hc. eauto.
  - inversion H; subst.
    destruct (feed_all_raised_inv _ _ _ _ _ Hfeed)
      as (before & line & mid & _ & _ & Hl).
    destruct (feed_raise_cases _ _ _ Hl) as [->|Hd]; auto.
Qed.

Lemma receive_raises_only_witness :
  (ProcessError (lit "CLI process failed") 1 (lit "Error: bad flag")
   = not_connected /\
   (_process failing_child = None \/ _stdout_stream failing_child = None)) \/
  ProcessError (lit "CLI process failed") 1 (lit "Error: bad flag")
  = overflow_error \/
  (exists buffer,
     ProcessError (lit "CLI process failed") 1 (lit "Error: bad flag")
     = CLIJSONDecodeError (firstn 1000 buffer ++ lit "...") /\
     MAX_BUFFER_SIZE <= len buffer <= MAX_BUFFER_SIZE + 1 /\
     looks_like_json buffer = true /\ json_loads buffer = None) \/
  (exists code text,
     ProcessError (lit "CLI process failed") 1 (lit "Error: bad flag")
     = ProcessError (lit "CLI process failed") code text /\
     code <> 0 /\ contains (lit "error") (lower text) = true).
Proof.
  apply (receive_raises_only failing_child 1).
  vm_compute. reflexivity.
Defined.

(* ================================================================== *)
(** * Further properties of the lifecycle *)

(** When the message stream has been read to its end without a framing
    error, the exit status is known: the transport reports that it is no
    longer connected, although it still holds the process and the streams
    until [disconnect]. *)
Theorem drained_transport_not_connected (t : transport) (p : process)
    (out : text_stream) (exit_code : Z) (msgs : list json) (st : acc_state) :
  _process t = Some p ->
  _stdout_stream t = Some out ->
  feed_all acc0 (chunks out) = (msgs, Exhausted st) ->
  let t' := after (receive_messages t exit_code) in
  is_connected t' = false /\
  _process t' = Some (wait p exit_code) /\
  _stdout_stream t' = Some (drained out).
Proof.
  intros Hp Hout Hfeed. unfold receive_messages.
  rewrite Hp, Hout, Hfeed. cbn [after]. split; [|split; reflexivity].
  unfold is_connected, wait. cbn [_process].
  destruct (returncode p) eqn:Hr; [rewrite Hr|]; reflexivity.
Qed.

Lemma drained_transport_not_connected_witness :
  let t' := after (receive_messages failing_child 1) in
  is_connected t' = false /\
  _process t' = Some (wait (mk_process None) 1) /\
  _stdout_stream t'
  = Some (drained (mk_stream [jlit "{'ok':true}"] EndOfStream)).
Proof.
  apply (drained_transport_not_connected failing_child (mk_process None)
           (mk_stream [jlit "{'ok':true}"] EndOfStream) 1 [ok_value] acc0).
  - reflexivity.
  - reflexivity.
  - vm_compute. reflexivity.
Defined.

Lemma drained_twice s : drained (drained s) = drained s.
Proof. reflexivity. Qed.

(** A process failure is reported once: a second [receive_messages] on the
    transport whose stream was read to its end finds both streams empty,
    yields nothing and raises nothing, whatever the exit status was. *)
Theorem second_receive_is_silent (t : transport) (p : process)
    (out : text_stream) (exit_code again : Z) (msgs : list json)
    (st : acc_state) :
  _process t = Some p ->
  _stdout_stream t = Some out ->
  feed_all acc0 (chunks out) = (msgs, Exhausted st) ->
  let t' := after (receive_messages t exit_code) in
  receive_messages t' again = mk_received t' [] None.
Proof.
  intros Hp Hout Hfeed.
  assert (Ht : after (receive_messages t exit_code)
               = mk_transport (Some (wait p exit_code)) (Some (drained out))
                              (option_map drained (_stderr_stream t))).
  { unfold receive_messages. rewrite Hp, Hout, Hfeed. reflexivity. }
  cbv zeta. rewrite Ht. clear Ht.
  unfold receive_messages, reconcile, read_stderr, wait, drained.
  cbn [_process _stdout_stream _stderr_stream chunks ending feed_all].
  destruct (_stderr_stream t) as [es|], (returncode p) as [c|] eqn:Hr;
    cbn [option_map chunks ending returncode map join_lines nonempty andb];
    rewrite ?Hr; cbn [returncode];
    try (destruct (negb (c =? 0))); try (destruct (negb (again =? 0)));
    try (destruct (negb (exit_code =? 0))); reflexivity.
Qed.

Lemma second_receive_is_silent_witness :
  raised (receive_messages failing_child 1)
  = Some (ProcessError (lit "CLI process failed") 1 (lit "Error: bad flag")) /\
  receive_messages (after (receive_messages failing_child 1)) 1
  = mk_received (after (receive_messages failing_child 1)) [] None.
Proof.
  split; [vm_compute; reflexivity|].
  apply (second_receive_is_silent failing_child (mk_process None)
           (mk_stream [jlit "{'ok':true}"] EndOfStream) 1 1 [ok_value] acc0).
  - reflexivity.
  - reflexivity.
  - vm_compute. reflexivity.
Defined.

(** A framing error takes the place of the exit status: when the loop raises,
    that exception is the one [receive_messages] raises, the messages yielded
    before it are kept, the process is not waited for and the lines after the
    failing one stay unread. *)
Theorem framing_error_ends_generator (t : transport) (p : process)
    (out : text_stream) (exit_code : Z) (msgs : list json) (e : sdk_error)
    (unread : list str) :
  _process t = Some p ->
  _stdout_stream t = Some out ->
  feed_all acc0 (chunks out) = (msgs, Raised e unread) ->
  let r := receive_messages t exit_code in
  yielded r = msgs /\ raised r = Some e /\
  _process (after r) = Some p /\
  _stdout_stream (after r) = Some (mk_stream unread (ending out)).
Proof.
  intros Hp Hout Hfeed. unfold receive_messages.
  rewrite Hp, Hout, Hfeed. repeat split.
Qed.

(** A failed [connect] changes nothing, and it raises the not-found error
    exactly when the launch failed for want of the file. *)
Theorem failed_connect_changes_nothing (t t' : transport)
    (spawn : spawn_result) (e : connect_error) :
  connect t spawn = (t', Some e) ->
  t' = t /\ _process t = None /\
  (e = CLINotFoundError <-> spawn = SpawnFileNotFound).
Proof.
  unfold connect. destruct (_process t) as [p|] eqn:Hp; [discriminate|].
  destruct spawn; intros H; inversion H; subst; repeat split;
    try reflexivity; try discriminate; intros; discriminate.
Qed.

Lemma failed_connect_changes_nothing_witness :
  new_transport = new_transport /\ _process new_transport = None /\
  (CLINotFoundError = CLINotFoundError <-> SpawnFileNotFound = SpawnFileNotFound).
Proof.
  apply (failed_connect_changes_nothing new_transport new_transport
           SpawnFileNotFound CLINotFoundError).
  reflexivity.
Defined.

(** A new child never inherits the streams of an earlier one: on every
    transport the class can reach, a [connect] that launches leaves exactly
    the process and the pipes of the new child, and none where the child has
    none. *)
Theorem new_child_brings_its_own_streams (t : transport) (p : process)
    (out err : option text_stream) :
  reachable t -> _process t = None ->
  fst (connect t (Spawned p out err)) = mk_transport (Some p) out err.
Proof.
  intros Hr Hp. destruct (reachable_streams t Hr Hp) as [Ho He].
  unfold connect. rewrite Hp, Ho, He. cbn [fst].
  destruct out, err; reflexivity.
Qed.

Lemma new_child_brings_its_own_streams_witness :
  fst (connect (fst (disconnect (connected [lit "x"])
                                (mk_child TerminateSent true)))
               (Spawned (mk_process None) None None))
  = mk_transport (Some (mk_process None)) None None.
Proof.
  apply (new_child_brings_its_own_streams
           (fst (disconnect (connected [lit "x"]) (mk_child TerminateSent true)))
           (mk_process None) None None).
  - apply reach_disconnect.
    exact (reach_connect new_transport
             (Spawned (mk_process None) (Some (mk_stream [lit "x"] EndOfStream))
                      (Some (mk_stream [] EndOfStream)))
             reach_new).
  - reflexivity.
Defined.

Lemma connect_with_success dumps open_process s env t t1 :
  connect_with dumps open_process s env t = (t1, None) ->
  exists p, _process t1 = Some p.
Proof.
  unfold connect_with, connect.
  destruct (_process t) as [p|] eqn:Hp.
  - intros H; inversion H; subst. eauto.
  - destruct (open_process _); intros H; inversion H; subst.
    cbn; eauto.
Qed.

(** [connect] is idempotent: after a [connect] that succeeded, another one
    returns at once with the transport as it is, whatever the launcher would
    answer and whatever the environment. *)
Theorem connect_twice_is_connect_once (dumps : json -> str)
    (first second : launch -> spawn_result) (s : settings)
    (env env' : environ) (t t1 : transport) :
  connect_with dumps first s env t = (t1, None) ->
  connect_with dumps second s env' t1 = (t1, None).
Proof.
  intros H. destruct (connect_with_success _ _ _ _ _ _ H) as [p Hp].
  unfold connect_with. rewrite Hp. reflexivity.
Qed.

Lemma connect_twice_is_connect_once_witness :
  connect_with (fun _ => []) (fun _ => SpawnFileNotFound)
    (mk_settings (lit "hi") no_options (lit "claude") None) []
    (mk_transport (Some (mk_process None))
                  (Some (mk_stream [] EndOfStream)) None)
  = (mk_transport (Some (mk_process None))
                  (Some (mk_stream [] EndOfStream)) None, None).
Proof.
  apply (connect_twice_is_connect_once (fun _ => [])
           (fun _ => Spawned (mk_process None)
                             (Some (mk_stream [] EndOfStream)) None)
           (fun _ => SpawnFileNotFound)
           (mk_settings (lit "hi") no_options (lit "claude") None)
           [(lit "PATH", lit "/usr/bin")] [] new_transport).
  reflexivity.
Defined.

(** Once connected to a child with a message pipe, [receive_messages] does
    read the stream: its messages are those the loop yields on the child's
    lines, and it never raises the not-connected error. *)
Theorem connect_then_receive (p : process) (out : text_stream)
    (err : option text_stream) (exit_code : Z) :
  let t := fst (connect new_transport (Spawned p (Some out) err)) in
  yielded (receive_messages t exit_code) = fst (feed_all acc0 (chunks out)) /\
  raised (receive_messages t exit_code) <> Some not_connected.
Proof.
  cbn [connect new_transport _process fst]. unfold receive_messages.
  cbn [_process _stdout_stream].
  destruct (feed_all acc0 (chunks out)) as [msgs [st|e unread]] eqn:Hfeed;
    cbn [yielded raised fst]; split; try reflexivity.
  - unfold reconcile. destruct (returncode (wait p exit_code)); [|discriminate].
    destruct (negb (z =? 0)); [|discriminate].
    destruct (nonempty _ && contains _ _); discriminate.
  - intros H. inversion H; subst.
    destruct (feed_all_raised_inv _ _ _ _ _ Hfeed)
      as (before & line & mid & _ & _ & Hl).
    destruct (feed_cases mid line) as [[_ Hc]|[_ [[e [Hr _]]|[[d [Hy _]]|[[s Hc]|Hc]]]]];
      rewrite Hl in *; try discriminate.
    unfold feed in Hl.
    destruct (nonempty (strip line)); [|discriminate].
    destruct (_ >? _); [discriminate|].
    unfold complete_check in Hl.
    destruct (nonempty _ && balanced _); [|discriminate].
    destruct (json_loads _); [discriminate|].
    destruct (looks_like_json _); [|discriminate].
    destruct (_ <? _); discriminate.
Qed.

(* ================================================================== *)
(** * Properties of the construction and of the launch *)

Lemma str_eqb_eq a b : str_eqb a b = true <-> a = b.
Proof.
  unfold str_eqb. destruct (list_eq_dec N.eq_dec a b); split; congruence.
Qed.

Lemma str_eqb_refl a : str_eqb a a = true.
Proof. apply str_eqb_eq. reflexivity. Qed.

Lemma str_eqb_neq a b : a <> b -> str_eqb a b = false.
Proof.
  intros H. destruct (str_eqb a b) eqn:E; [|reflexivity].
  apply str_eqb_eq in E. contradiction.
Qed.

Lemma first_file_some h p : forall paths,
  first_file h paths = Some p <->
  exists before after,
    paths = before ++ p :: after /\
    path_exists h p && path_is_file h p = true /\
    Forall (fun q => path_exists h q && path_is_file h q = false) before.
Proof.
  induction paths as [|q paths IH]; cbn [first_file].
  - split; [discriminate|]. intros (before & after & H & _).
    destruct before; discriminate.
  - destruct (path_exists h q && path_is_file h q) eqn:Hq.
    + split.
      * intros H; inversion H; subst. exists [], paths. auto.
      * intros (before & after & H & Hp & Hb).
        destruct before as [|b before].
        -- inversion H; reflexivity.
        -- inversion H; subst. inversion Hb; subst. congruence.
    + rewrite IH. split.
      * intros (before & after & -> & Hp & Hb).
        exists (q :: before), after. repeat split; auto.
      * intros (before & after & H & Hp & Hb).
        destruct before as [|b before].
        -- inversion H; subst. congruence.
        -- inversion H; subst. inversion Hb; subst. eauto.
Qed.

Lemma first_file_none h : forall paths,
  first_file h paths = None <->
  Forall (fun q => path_exists h q && path_is_file h q = false) paths.
Proof.
  induction paths as [|q paths IH]; cbn [first_file].
  - split; auto.
  - destruct (path_exists h q && path_is_file h q) eqn:Hq.
    + split; [discriminate|]. intros H; inversion H; congruence.
    + rewrite IH. split; [auto|]. intros H; inversion H; auto.
Qed.

(** [_find_cli] returns the binary found on the search path when there is
    one; otherwise the first of the five listed places that exists and is a
    file, the earlier places being no files; and nothing else. *)
Theorem find_cli_returns_first_match (h : host) (p : str) :
  _find_cli h = inl p <->
  given (which h (lit "claude")) = Some p \/
  (given (which h (lit "claude")) = None /\
   exists before after,
     locations h = before ++ p :: after /\
     path_exists h p && path_is_file h p = true /\
     Forall (fun q => path_exists h q && path_is_file h q = false) before).
Proof.
  unfold _find_cli.
  destruct (given (which h (lit "claude"))) as [cli|].
  - split.
    + intros H; inversion H; auto.
    + intros [H|[H _]]; [inversion H; reflexivity | discriminate].
  - rewrite <- first_file_some.
    destruct (first_file h (locations h)) as [q|].
    + split.
      * intros H; inversion H; auto.
      * intros [H|[_ H]]; [discriminate | inversion H; reflexivity].
    + destruct (which h (lit "node")); split;
        try discriminate; intros [H|[_ H]]; discriminate.
Qed.

(** [_find_cli] fails exactly when the search path has no binary and none of
    the five places is a file; the message asks for Node.js when [node] is
    not on the search path and for the package otherwise. *)
Theorem find_cli_fails_when_nothing_found (h : host) (e : find_error) :
  _find_cli h = inr e <->
  given (which h (lit "claude")) = None /\
  Forall (fun q => path_exists h q && path_is_file h q = false) (locations h) /\
  e = NotFound (match which h (lit "node") with
                | None => node_missing_message
                | Some _ => not_found_message
                end).
Proof.
  unfold _find_cli.
  destruct (given (which h (lit "claude"))) as [cli|].
  - split; [discriminate | intros [H _]; discriminate].
  - rewrite <- first_file_none.
    destruct (first_file h (locations h)) as [q|].
    + split; [discriminate | intros (_ & H & _); discriminate].
    + destruct (which h (lit "node")); split.
      * intros H; inversion H; auto.
      * intros (_ & _ & ->). reflexivity.
      * intros H; inversion H; auto.
      * intros (_ & _ & ->). reflexivity.
Qed.

(** With a path given (a [Path], or a [str] that is not empty) [__init__]
    never looks at the host and cannot fail; an empty [str] counts as no path
    and sends [__init__] to the search, whose error it passes on. *)
Theorem init_uses_given_path (h : host) (prompt : str)
    (options : ClaudeCodeOptions) :
  (forall cli_path text,
     path_text cli_path = Some text ->
     init h prompt options cli_path
     = inl (mk_settings prompt options text (path_text (cwd options)),
            new_transport)) /\
  init h prompt options (StrPath []) = init h prompt options NoPath /\
  (forall e, init h prompt options NoPath = inr e <-> _find_cli h = inr e).
Proof.
  split; [|split].
  - intros cli_path text H. unfold init. rewrite H. reflexivity.
  - reflexivity.
  - intros e. unfold init. cbn [path_text].
    destruct (_find_cli h); split; intros H; inversion H; reflexivity.
Qed.

Lemma init_uses_given_path_witness :
  init bare_host (lit "hi") no_options (StrPath (lit "/opt/claude"))
  = inl (mk_settings (lit "hi") no_options (lit "/opt/claude") None,
         new_transport).
Proof.
  destruct (init_uses_given_path bare_host (lit "hi") no_options) as (H & _).
  apply (H (StrPath (lit "/opt/claude"))). reflexivity.
Defined.

(** Every transport that [__init__] builds is unconnected: it reports so,
    [receive_messages] raises the not-connected error on it and [disconnect]
    has nothing to do. *)
Theorem init_gives_unconnected (h : host) (prompt : str)
    (options : ClaudeCodeOptions) (cli_path : path_arg) (s : settings)
    (t : transport) :
  init h prompt options cli_path = inl (s, t) ->
  is_connected t = false /\
  (forall exit_code,
     receive_messages t exit_code = mk_received t [] (Some not_connected)) /\
  (forall child, disconnect t child = (t, [])) /\
  _prompt s = prompt /\ _options s = options /\
  _cwd s = path_text (cwd options).
Proof.
  unfold init. intros H.
  assert (Ht : t = new_transport /\ _prompt s = prompt /\ _options s = options
               /\ _cwd s = path_text (cwd options)).
  { destruct (path_text cli_path); [inversion H; subst; auto|].
    destruct (_find_cli h); inversion H; subst; auto. }
  destruct Ht as (-> & Hp & Ho & Hc). repeat split; auto.
Qed.

Lemma init_gives_unconnected_witness :
  is_connected new_transport = false /\
  (forall exit_code,
     receive_messages new_transport exit_code
     = mk_received new_transport [] (Some not_connected)) /\
  (forall child, disconnect new_transport child = (new_transport, [])) /\
  _prompt (mk_settings (lit "hi") no_options
             (lit "/usr/local/bin/claude") None) = lit "hi" /\
  _options (mk_settings (lit "hi") no_options
              (lit "/usr/local/bin/claude") None) = no_options /\
  _cwd (mk_settings (lit "hi") no_options
          (lit "/usr/local/bin/claude") None) = path_text (cwd no_options).
Proof.
  apply (init_gives_unconnected local_host (lit "hi") no_options NoPath).
  vm_compute. reflexivity.
Defined.

(* ------------------------------------------------------------------ *)
(** ** The command line *)

Lemma given_given o : given (given o) = given o.
Proof.
  destruct o as [s|]; [|reflexivity]. cbn [given].
  destruct (nonempty s) eqn:H; cbn [given]; [rewrite H|]; reflexivity.
Qed.

Lemma given_int_given_int o : given_int (given_int o) = given_int o.
Proof.
  destruct o as [n|]; [|reflexivity]. cbn [given_int].
  destruct (n =? 0) eqn:H; cbn [given_int]; [|rewrite H]; reflexivity.
Qed.

(** [_build_command] reads an option only through its truth value: an empty
    string and a turn count of zero give the same command as an option that
    is not set, so that [max_turns = 0] sends no [--max-turns] at all. *)
Theorem falsy_options_are_dropped (dumps : json -> str) (s : settings) :
  _build_command dumps s
  = _build_command dumps
      (mk_settings (_prompt s) (normalized (_options s)) (_cli_path s) (_cwd s)).
Proof.
  unfold _build_command, normalized.
  cbn [_options _prompt _cli_path system_prompt append_system_prompt
       allowed_tools max_turns disallowed_tools model
       permission_prompt_tool_name permission_mode continue_conversation
       resume mcp_servers].
  rewrite !given_given, given_int_given_int. reflexivity.
Qed.

Lemma frame_middle (header tail : list str) (parts : list (list str)) :
  header ++ fold_right (@app str) tail parts
  = header ++ concat parts ++ tail.
Proof.
  f_equal. induction parts as [|x parts IH]; [reflexivity|].
  cbn [fold_right concat]. rewrite IH, app_assoc. reflexivity.
Qed.

(** The command always starts with the binary and the three arguments that
    select the streamed JSON output, and always ends with [--print] and the
    prompt; with no option set there is nothing in between. *)
Theorem command_frame (dumps : json -> str) (s : settings) :
  (exists flags,
     _build_command dumps s
     = [_cli_path s; lit "--output-format"; lit "stream-json"; lit "--verbose"]
       ++ flags ++ [lit "--print"; _prompt s]) /\
  (normalized (_options s)
   = mk_options None None [] None [] None None None false None []
                (cwd (_options s)) ->
   _build_command dumps s
   = [_cli_path s; lit "--output-format"; lit "stream-json"; lit "--verbose";
      lit "--print"; _prompt s]).
Proof.
  split.
  - unfold _build_command. set (o := _options s).
    exists (concat
      [ flag_value "--system-prompt" (given (system_prompt o));
        flag_value "--append-system-prompt" (given (append_system_prompt o));
        flag_names "--allowedTools" (allowed_tools o);
        flag_value "--max-turns"
          (option_map str_of_int (given_int (max_turns o)));
        flag_names "--disallowedTools" (disallowed_tools o);
        flag_value "--model" (given (model o));
        flag_value "--permission-prompt-tool"
          (given (permission_prompt_tool_name o));
        flag_value "--permission-mode" (given (permission_mode o));
        (if continue_conversation o then [lit "--continue"] else []);
        flag_value "--resume" (given (resume o));
        match mcp_servers o with
        | [] => []
        | _ :: _ =>
            [lit "--mcp-config";
             dumps (JObject [(lit "mcpServers", JObject (mcp_servers o))])]
        end ]).
    rewrite <- frame_middle. reflexivity.
  - intros H. unfold _build_command.
    pose proof (f_equal system_prompt H) as H1.
    pose proof (f_equal append_system_prompt H) as H2.
    pose proof (f_equal allowed_tools H) as H3.
    pose proof (f_equal max_turns H) as H4.
    pose proof (f_equal disallowed_tools H) as H5.
    pose proof (f_equal model H) as H6.
    pose proof (f_equal permission_prompt_tool_name H) as H7.
    pose proof (f_equal permission_mode H) as H8.
    pose proof (f_equal continue_conversation H) as H9.
    pose proof (f_equal resume H) as H10.
    pose proof (f_equal mcp_servers H) as H11.
    clear H. unfold normalized in *.
    cbn [system_prompt append_system_prompt allowed_tools max_turns
         disallowed_tools model permission_prompt_tool_name permission_mode
         continue_conversation resume mcp_servers] in *.
    rewrite H1, H2, H3, H4, H5, H6, H7, H8, H9, H10, H11. reflexivity.
Qed.

Lemma command_frame_witness :
  _build_command (fun _ => [])
    (mk_settings (lit "hi")
       (mk_options (Some []) None [] (Some 0) [] None None None false None []
                   (StrPath (lit "/tmp")))
       (lit "claude") (Some (lit "/tmp")))
  = [lit "claude"; lit "--output-format"; lit "stream-json"; lit "--verbose";
     lit "--print"; lit "hi"].
Proof.
  destruct (command_frame (fun _ => [])
    (mk_settings (lit "hi")
       (mk_options (Some []) None [] (Some 0) [] None None None false None []
                   (StrPath (lit "/tmp")))
       (lit "claude") (Some (lit "/tmp")))) as [_ H].
  apply H. reflexivity.
Defined.

Lemma has_flag_right cmd pre flag value :
  has_flag cmd flag value -> has_flag (pre ++ cmd) flag value.
Proof.
  intros (before & after & ->). exists (pre ++ before), after.
  rewrite app_assoc. reflexivity.
Qed.

Lemma has_flag_left cmd post flag value :
  has_flag cmd flag value -> has_flag (cmd ++ post) flag value.
Proof.
  intros (before & after & ->). exists before, (after ++ post).
  rewrite <- app_assoc. reflexivity.
Qed.

Lemma has_flag_value flag v : has_flag (flag_value flag (Some v)) flag v.
Proof. exists [], []. reflexivity. Qed.

Lemma has_flag_names flag n names :
  has_flag (flag_names flag (n :: names)) flag (join_with (lit ",") (n :: names)).
Proof. exists [], []. reflexivity. Qed.

Ltac find_flag :=
  unfold _build_command;
  repeat match goal with
  | H : ?x = _ |- context [?x] => rewrite H
  end;
  repeat first
    [ apply has_flag_value
    | apply has_flag_names
    | apply has_flag_left; first [apply has_flag_value | apply has_flag_names]
    | apply has_flag_right ].

(** Every option that is set reaches the command line as its flag followed
    by its value: the strings as they are, the tool names joined by commas,
    the turn count as a decimal numeral, the servers as one JSON object under
    the key [mcpServers]; [--continue] stands alone. *)
Theorem set_options_reach_the_command (dumps : json -> str) (s : settings) :
  let o := _options s in
  let cmd := _build_command dumps s in
  (forall v, given (system_prompt o) = Some v ->
             has_flag cmd "--system-prompt" v) /\
  (forall v, given (append_system_prompt o) = Some v ->
             has_flag cmd "--append-system-prompt" v) /\
  (allowed_tools o <> [] ->
   has_flag cmd "--allowedTools" (join_with (lit ",") (allowed_tools o))) /\
  (forall n, given_int (max_turns o) = Some n ->
             has_flag cmd "--max-turns" (str_of_int n)) /\
  (disallowed_tools o <> [] ->
   has_flag cmd "--disallowedTools" (join_with (lit ",") (disallowed_tools o))) /\
  (forall v, given (model o) = Some v -> has_flag cmd "--model" v) /\
  (forall v, given (permission_prompt_tool_name o) = Some v ->
             has_flag cmd "--permission-prompt-tool" v) /\
  (forall v, given (permission_mode o) = Some v ->
             has_flag cmd "--permission-mode" v) /\
  (continue_conversation o = true -> In (lit "--continue") cmd) /\
  (forall v, given (resume o) = Some v -> has_flag cmd "--resume" v) /\
  (mcp_servers o <> [] ->
   has_flag cmd "--mcp-config"
     (dumps (JObject [(lit "mcpServers", JObject (mcp_servers o))]))).
Proof.
  cbv zeta.
  split; [|split; [|split; [|split; [|split; [|split; [|split; [|split;
    [|split; [|split]]]]]]]]].
  - intros v H. find_flag.
  - intros v H. find_flag.
  - intros H. destruct (allowed_tools (_options s)) as [|n names] eqn:E;
      [congruence|]. unfold _build_command. rewrite E. find_flag.
  - intros n H. unfold _build_command. rewrite H. cbn [option_map]. find_flag.
  - intros H. destruct (disallowed_tools (_options s)) as [|n names] eqn:E;
      [congruence|]. unfold _build_command. rewrite E. find_flag.
  - intros v H. find_flag.
  - intros v H. find_flag.
  - intros v H. find_flag.
  - intros H. unfold _build_command. rewrite H.
    do 9 (apply in_or_app; right).
    apply in_or_app. left. left. reflexivity.
  - intros v H. find_flag.
  - intros H. destruct (mcp_servers (_options s)) as [|m ms] eqn:E;
      [congruence|]. unfold _build_command. rewrite E.
    do 11 apply has_flag_right.
    apply has_flag_left. exists [], []. reflexivity.
Qed.

Lemma set_options_reach_the_command_witness :
  let cmd :=
    _build_command (fun _ => lit "{}")
      (mk_settings (lit "hi")
         (mk_options None None [lit "Read"; lit "Bash"] (Some 3) [] (Some (lit "opus"))
                     None None true None [] NoPath)
         (lit "claude") None) in
  has_flag cmd "--allowedTools" (lit "Read,Bash") /\
  has_flag cmd "--max-turns" (lit "3") /\
  has_flag cmd "--model" (lit "opus") /\
  In (lit "--continue") cmd.
Proof.
  destruct (set_options_reach_the_command (fun _ => lit "{}")
      (mk_settings (lit "hi")
         (mk_options None None [lit "Read"; lit "Bash"] (Some 3) [] (Some (lit "opus"))
                     None None true None [] NoPath)
         (lit "claude") None))
    as (_ & _ & H3 & H4 & _ & H6 & _ & _ & H9 & _).
  cbv zeta. split; [|split; [|split]].
  - apply H3. discriminate.
  - apply (H4 3). reflexivity.
  - apply (H6 (lit "opus")). reflexivity.
  - apply H9. reflexivity.
Defined.

(* ------------------------------------------------------------------ *)
(** ** The environment of the child *)

Lemma env_get_set_same key value : forall d,
  env_get key (env_set key value d) = Some value.
Proof.
  induction d as [|[k v] d IH]; cbn [env_set env_get].
  - rewrite str_eqb_refl. reflexivity.
  - destruct (str_eqb key k) eqn:E; cbn [env_get]; rewrite ?str_eqb_refl, ?E;
      [reflexivity | exact IH].
Qed.

Lemma env_get_set_other key value other : forall d,
  other <> key -> env_get other (env_set key value d) = env_get other d.
Proof.
  intros d Hne. induction d as [|[k v] d IH]; cbn [env_set env_get].
  - rewrite (str_eqb_neq _ _ Hne). reflexivity.
  - destruct (str_eqb key k) eqn:E; cbn [env_get].
    + apply str_eqb_eq in E; subst k.
      rewrite (str_eqb_neq _ _ Hne). reflexivity.
    + destruct (str_eqb other k); [reflexivity | exact IH].
Qed.

(** The child is launched with [CLAUDE_CODE_ENTRYPOINT] set to [sdk-py],
    whatever value the variable had, and with every other variable of the
    caller's environment as it was; it runs in the directory given in the
    options, if any, with the command of [_build_command]. *)
Theorem child_environment (dumps : json -> str) (s : settings)
    (os_environ : environ) :
  let l := launch_of dumps s os_environ in
  env_get ENTRYPOINT (launch_env l) = Some (lit "sdk-py") /\
  (forall name, name <> ENTRYPOINT ->
                env_get name (launch_env l) = env_get name os_environ) /\
  launch_cwd l = _cwd s /\
  command l = _build_command dumps s.
Proof.
  cbv zeta. unfold launch_of. cbn [launch_env launch_cwd command].
  split; [apply env_get_set_same|]. split; [|split; reflexivity].
  intros name Hne. apply env_get_set_other, Hne.
Qed.

(** [connect] launches the child only when no process is held: with a
    process the launcher is not consulted, and without one the outcome is that
    of the launch made with [launch_of]. *)
Theorem connect_launches_once (dumps : json -> str)
    (open_process : launch -> spawn_result) (s : settings)
    (os_environ : environ) (t : transport) :
  (_process t <> None ->
   connect_with dumps open_process s os_environ t = (t, None)) /\
  (_process t = None ->
   connect_with dumps open_process s os_environ t
   = match open_process (launch_of dumps s os_environ) with
     | Spawned p out err =>
         (mk_transport (Some p)
            (match out with Some _ => out | None => _stdout_stream t end)
            (match err with Some _ => err | None => _stderr_stream t end),
          None)
     | SpawnFileNotFound => (t, Some CLINotFoundError)
     | SpawnFailed m => (t, Some (ConnectFailed m))
     end).
Proof.
  unfold connect_with, connect. split; intros H.
  - destruct (_process t); [reflexivity | congruence].
  - rewrite H. reflexivity.
Qed.
